(** * groutine_pool: a bounded goroutine pool (pool.go)

    The pool is concurrent code: [Execute], [loop] and [Close] run in
    different goroutines and meet on two channels, a mutex, a WaitGroup and
    a context.  The embedding is an interleaving semantics: every goroutine
    is a thread with a program counter that names the statement of pool.go
    it is about to run, the shared [Pool] struct is one record, and
    [step] runs one statement (or one channel rendezvous) of one thread.
    [sync.WaitGroup] and [time.Timer] are modelled after the Go runtime:
    the WaitGroup with its counter, its parked waiters and the checks that
    make [Add] and [Wait] panic, the timer with the instant it is set for.
    A clock ([now]) moves by [Tick]; a timer may expire at any moment from
    its instant on. *)

From stdpp Require Import base numbers option list.

Local Open Scope nat_scope.

(** ** Values *)

(** Values of a panic.  All but the last are the run-time errors the
    statements of pool.go can raise; [UserPanic] is a value a task body
    passes to [panic]. *)
Inductive Payload :=
  | SendOnClosed        (* send on closed channel *)
  | CloseOfClosed       (* close of closed channel *)
  | NilFuncCall         (* call of a nil func value *)
  | NegativeWaitGroup   (* sync: negative WaitGroup counter *)
  | UnlockOfUnlocked    (* sync: Unlock of unlocked RWMutex *)
  | WaitGroupMisuse     (* sync: WaitGroup misuse: Add called concurrently
                           with Wait *)
  | WaitGroupReused     (* sync: WaitGroup is reused before previous Wait
                           has returned *)
  | UserPanic (v : nat).

(** A task body [func(ctx context.Context)]: all a body can learn from the
    pool is whether [ctx] is done when it looks; it then returns ([None])
    or panics ([Some r]). *)
Definition TaskBody := bool → option Payload.

(** The value handed to [Execute]: a func value, possibly nil ([fn = None]).
    [origin] is a ghost tag, the index of the [Execute] call that brought
    the value in; Go funcs have no identity of their own. *)
Record Job := { origin : nat; fn : option TaskBody }.

(** What the panic handler [recoverFunc func(r any)] has been given so far;
    the handler is a callback into the caller's code (a logging sink), it
    transforms that outside state and returns. *)
Definition Sink := list Payload.
Definition Handler := Payload → Sink → Sink.

(** ** The Pool struct *)

(** The last three fields are the state of the [sync.WaitGroup]: its
    counter, the number of [Wait] calls parked on it, and the wake-ups
    (semaphore releases) given to parked calls and not yet taken. *)
Record Pool := {
  pending_closed : bool;        (* pending: unbuffered, so its only state *)
  tokens_len : nat;             (* len(tokens) *)
  tokens_closed : bool;
  concurrent : Z;               (* cap(tokens) *)
  idleTimeout : Z;
  closed : bool;
  recoverFunc : option Handler;
  ctx_parent_done : bool;       (* the context given by WithCtx is done *)
  cancelled : bool;             (* g.cancel() has been called *)
  locked : bool;                (* the embedded RWMutex is held *)
  wait : nat;                   (* the WaitGroup counter *)
  waiters : nat;                (* Wait calls parked on the WaitGroup *)
  sema : nat                    (* wake-ups not yet taken *)
}.

(** ** Options and NewPool *)

(** [type PoolOpt func(pool *Pool)]: the four options the package makes,
    and the nil func value, which a caller can pass as well.  Options a
    caller writes itself are not modelled. *)
Inductive PoolOpt :=
  | WithCtx (parent_done : bool)
  | WithConcurrent (n : Z)
  | WithIdleTimeout (d : Z)
  | WithRecover (f : option Handler)
  | NilOpt.

(** [opt(&pool)], line 32; the call of a nil option panics. *)
Definition apply_opt (pool : Pool) (opt : PoolOpt) : option Pool :=
  match opt with
  | WithCtx c =>
      Some
        {| pending_closed := pending_closed pool;
           tokens_len := tokens_len pool; tokens_closed := tokens_closed pool;
           concurrent := concurrent pool; idleTimeout := idleTimeout pool;
           closed := closed pool; recoverFunc := recoverFunc pool;
           ctx_parent_done := c; cancelled := cancelled pool;
           locked := locked pool; wait := wait pool; waiters := waiters pool;
           sema := sema pool |}
  | WithConcurrent n =>
      Some
        {| pending_closed := pending_closed pool;
           tokens_len := tokens_len pool; tokens_closed := tokens_closed pool;
           concurrent := n; idleTimeout := idleTimeout pool;
           closed := closed pool; recoverFunc := recoverFunc pool;
           ctx_parent_done := ctx_parent_done pool;
           cancelled := cancelled pool; locked := locked pool;
           wait := wait pool; waiters := waiters pool; sema := sema pool |}
  | WithIdleTimeout d =>
      Some
        {| pending_closed := pending_closed pool;
           tokens_len := tokens_len pool; tokens_closed := tokens_closed pool;
           concurrent := concurrent pool; idleTimeout := d;
           closed := closed pool; recoverFunc := recoverFunc pool;
           ctx_parent_done := ctx_parent_done pool;
           cancelled := cancelled pool; locked := locked pool;
           wait := wait pool; waiters := waiters pool; sema := sema pool |}
  | WithRecover f =>
      Some
        {| pending_closed := pending_closed pool;
           tokens_len := tokens_len pool; tokens_closed := tokens_closed pool;
           concurrent := concurrent pool; idleTimeout := idleTimeout pool;
           closed := closed pool; recoverFunc := f;
           ctx_parent_done := ctx_parent_done pool;
           cancelled := cancelled pool; locked := locked pool;
           wait := wait pool; waiters := waiters pool; sema := sema pool |}
  | NilOpt => None
  end.

(** The loop of lines 31-33. *)
Fixpoint apply_opts (pool : Pool) (opts : list PoolOpt) : option Pool :=
  match opts with
  | [] => Some pool
  | opt :: opts' =>
      match apply_opt pool opt with
      | Some pool' => apply_opts pool' opts'
      | None => None
      end
  end.

(** One second, in nanoseconds. *)
Definition second : Z := 1000000000%Z.

Definition default_pool : Pool :=
  {| pending_closed := false; tokens_len := 0; tokens_closed := false;
     concurrent := 10; idleTimeout := second; closed := false;
     recoverFunc := None; ctx_parent_done := false; cancelled := false;
     locked := false; wait := 0; waiters := 0; sema := 0 |}.

(** [NewPool]: the defaults, then the options in order, then
    [make(chan struct{}, pool.concurrent)], which panics on a negative
    size.  Nothing recovers a panic of [NewPool], so then there is no pool
    ([None]). *)
Definition NewPool (opts : list PoolOpt) : option Pool :=
  match apply_opts default_pool opts with
  | Some pool => if (concurrent pool <? 0)%Z then None else Some pool
  | None => None
  end.

(** ** Goroutines *)

(** [time.Timer]: [active] until it expires or is stopped; it is set for
    the instant [when], and on expiry a value is put in the one-slot
    channel [timer.C] ([chan]).  Instants and durations are in
    nanoseconds. *)
Record Timer := { active : bool; chan : bool; when : Z }.

(** [time.NewTimer(d)] called at the instant [now]. *)
Definition NewTimer (d now : Z) : Timer :=
  {| active := true; chan := false; when := (now + d)%Z |}.
(** The timer variable before line 60. *)
Definition no_timer : Timer := {| active := false; chan := false; when := 0 |}.
Definition expire (t : Timer) : Timer :=
  {| active := false; chan := true; when := when t |}.
(** [timer.Stop()] reports whether the call stopped the timer. *)
Definition Stop (t : Timer) : bool * Timer :=
  (active t, {| active := false; chan := chan t; when := when t |}).
Definition drain (t : Timer) : Timer :=
  {| active := active t; chan := false; when := when t |}.
(** [timer.Reset(d)] called at the instant [now]. *)
Definition Reset (d now : Z) (t : Timer) : Timer :=
  {| active := true; chan := chan t; when := (now + d)%Z |}.

(** Program counters of an [Execute] call. *)
Inductive EPc :=
  | ESelect                       (* line 46: at the select *)
  | EAdd                          (* line 49: token sent, before wait.Add(1) *)
  | EGo                           (* line 50: before go g.loop(f) *)
  | EDefer (p : option Payload)   (* leaving: deferred doRecover to run *)
  | EDone (returned_g : bool)     (* returned; nil after a recovered panic *)
  | EAbandoned                    (* returned nil after wait.Add(1) panicked:
                                     the token of line 48 and the unit of
                                     line 49 stay behind *)
  | ECrashed (r : Payload).       (* the panic went on to the caller *)

(** Program counters of a worker, [loop]. *)
Inductive WPc :=
  | WNewTimer                        (* line 60 *)
  | WCall                            (* line 64: before f(g.ctx) *)
  | WBody                            (* inside the task body *)
  | WSelect                          (* line 66 *)
  | WStop                            (* line 74: non-nil f received *)
  | WDrain                           (* line 75: Stop returned false *)
  | WReset                           (* line 77 *)
  | WDeferStop (p : option Payload)    (* deferred timer.Stop() *)
  | WDeferToken (p : option Payload)   (* deferred <-g.tokens *)
  | WDeferDone (p : option Payload)    (* deferred g.wait.Done() *)
  | WDoneCheck (p : option Payload) (w : nat)
                                     (* inside Done: the counter was brought
                                        to zero with [w] waiters parked *)
  | WDeferRecover (p : option Payload) (* deferred g.doRecover() *)
  | WExited
  | WCrashed (r : Payload).

(** Program counters of a [Close] call. *)
Inductive CPc :=
  | CLock            (* line 83 *)
  | CCheck           (* line 84 *)
  | CUnlockReturn    (* lines 85-86 *)
  | CSet             (* line 88 *)
  | CUnlock          (* line 89 *)
  | CClosePending    (* line 91 *)
  | CCloseTokens     (* line 92 *)
  | CCancel          (* lines 94-96 *)
  | CWait            (* line 97 *)
  | CParked          (* inside Wait: parked on the semaphore *)
  | CWoken           (* inside Wait: woken up *)
  | CDone (shutdown : bool)   (* returned; [true] after line 97 *)
  | CCrashed (r : Payload).

Inductive Thread :=
  | Executor (pc : EPc) (job : Job)
  | Worker (pc : WPc) (job : Job) (timer : Timer)
  | Closer (pc : CPc) (grace : bool).

Record State := {
  pool : Pool;
  threads : list Thread;
  started : list nat;    (* origins of the task bodies invoked, in order *)
  sink : Sink;
  now : Z                (* the clock *)
}.

(** ** Field updates *)

Definition set_pending_closed (g : Pool) : Pool :=
  {| pending_closed := true; tokens_len := tokens_len g;
     tokens_closed := tokens_closed g; concurrent := concurrent g;
     idleTimeout := idleTimeout g; closed := closed g;
     recoverFunc := recoverFunc g; ctx_parent_done := ctx_parent_done g;
     cancelled := cancelled g; locked := locked g; wait := wait g;
     waiters := waiters g; sema := sema g |}.

Definition set_tokens_closed (g : Pool) : Pool :=
  {| pending_closed := pending_closed g; tokens_len := tokens_len g;
     tokens_closed := true; concurrent := concurrent g;
     idleTimeout := idleTimeout g; closed := closed g;
     recoverFunc := recoverFunc g; ctx_parent_done := ctx_parent_done g;
     cancelled := cancelled g; locked := locked g; wait := wait g;
     waiters := waiters g; sema := sema g |}.

Definition set_tokens_len (n : nat) (g : Pool) : Pool :=
  {| pending_closed := pending_closed g; tokens_len := n;
     tokens_closed := tokens_closed g; concurrent := concurrent g;
     idleTimeout := idleTimeout g; closed := closed g;
     recoverFunc := recoverFunc g; ctx_parent_done := ctx_parent_done g;
     cancelled := cancelled g; locked := locked g; wait := wait g;
     waiters := waiters g; sema := sema g |}.

Definition set_closed (g : Pool) : Pool :=
  {| pending_closed := pending_closed g; tokens_len := tokens_len g;
     tokens_closed := tokens_closed g; concurrent := concurrent g;
     idleTimeout := idleTimeout g; closed := true;
     recoverFunc := recoverFunc g; ctx_parent_done := ctx_parent_done g;
     cancelled := cancelled g; locked := locked g; wait := wait g;
     waiters := waiters g; sema := sema g |}.

Definition set_cancelled (g : Pool) : Pool :=
  {| pending_closed := pending_closed g; tokens_len := tokens_len g;
     tokens_closed := tokens_closed g; concurrent := concurrent g;
     idleTimeout := idleTimeout g; closed := closed g;
     recoverFunc := recoverFunc g; ctx_parent_done := ctx_parent_done g;
     cancelled := true; locked := locked g; wait := wait g;
     waiters := waiters g; sema := sema g |}.

Definition set_locked (b : bool) (g : Pool) : Pool :=
  {| pending_closed := pending_closed g; tokens_len := tokens_len g;
     tokens_closed := tokens_closed g; concurrent := concurrent g;
     idleTimeout := idleTimeout g; closed := closed g;
     recoverFunc := recoverFunc g; ctx_parent_done := ctx_parent_done g;
     cancelled := cancelled g; locked := b; wait := wait g;
     waiters := waiters g; sema := sema g |}.

Definition set_wait (n : nat) (g : Pool) : Pool :=
  {| pending_closed := pending_closed g; tokens_len := tokens_len g;
     tokens_closed := tokens_closed g; concurrent := concurrent g;
     idleTimeout := idleTimeout g; closed := closed g;
     recoverFunc := recoverFunc g; ctx_parent_done := ctx_parent_done g;
     cancelled := cancelled g; locked := locked g; wait := n;
     waiters := waiters g; sema := sema g |}.

Definition set_waiters (n : nat) (g : Pool) : Pool :=
  {| pending_closed := pending_closed g; tokens_len := tokens_len g;
     tokens_closed := tokens_closed g; concurrent := concurrent g;
     idleTimeout := idleTimeout g; closed := closed g;
     recoverFunc := recoverFunc g; ctx_parent_done := ctx_parent_done g;
     cancelled := cancelled g; locked := locked g; wait := wait g;
     waiters := n; sema := sema g |}.

Definition set_sema (n : nat) (g : Pool) : Pool :=
  {| pending_closed := pending_closed g; tokens_len := tokens_len g;
     tokens_closed := tokens_closed g; concurrent := concurrent g;
     idleTimeout := idleTimeout g; closed := closed g;
     recoverFunc := recoverFunc g; ctx_parent_done := ctx_parent_done g;
     cancelled := cancelled g; locked := locked g; wait := wait g;
     waiters := waiters g; sema := n |}.


Definition with_pool (g : Pool) (s : State) : State :=
  {| pool := g; threads := threads s; started := started s; sink := sink s;
     now := now s |}.

(** Thread [i] moves on to [t]. *)
Definition set_thread (i : nat) (t : Thread) (s : State) : State :=
  {| pool := pool s; threads := <[i := t]> (threads s);
     started := started s; sink := sink s; now := now s |}.

(** A new goroutine; its index is the next free one. *)
Definition spawn (t : Thread) (s : State) : State :=
  {| pool := pool s; threads := threads s ++ [t];
     started := started s; sink := sink s; now := now s |}.

Definition log_start (k : nat) (s : State) : State :=
  {| pool := pool s; threads := threads s;
     started := started s ++ [k]; sink := sink s; now := now s |}.

Definition with_sink (k : Sink) (s : State) : State :=
  {| pool := pool s; threads := threads s; started := started s; sink := k;
     now := now s |}.

(** The clock moves on by [dt]. *)
Definition advance (dt : Z) (s : State) : State :=
  {| pool := pool s; threads := threads s; started := started s;
     sink := sink s; now := (now s + dt)%Z |}.

(** The pool right after [NewPool], no goroutine started. *)
Definition init (g : Pool) : State :=
  {| pool := g; threads := []; started := []; sink := []; now := 0 |}.

(** [g.ctx] as a task sees it: the child made by [context.WithCancel] is
    done when its parent is or when [g.cancel] was called. *)
Definition ctx_done (g : Pool) : bool := ctx_parent_done g || cancelled g.

(** ** doRecover *)

(** [doRecover] runs as a deferred call, so its [recover()] returns the
    value of the panic in flight ([panicking]) and ends that panic; with
    no panic in flight [r] is nil.  The handler runs when both [r] and
    [g.recoverFunc] are non-nil.  The result is the sink and the panic
    still in flight afterwards. *)
Definition doRecover (g : Pool) (panicking : option Payload) (k : Sink)
  : Sink * option Payload :=
  match panicking with
  | Some r =>
      match recoverFunc g with
      | Some h => (h r k, None)
      | None => (k, None)
      end
  | None => (k, None)
  end.

(** ** The WaitGroup *)

(** [sync.WaitGroup] keeps the counter and the number of parked [Wait]
    calls in one atomic word; its operations on that word are

    - [Add(delta)]: add [delta] to the counter; panic if the counter is
      negative; panic ("Add called concurrently with Wait") if there are
      waiters, [delta] is positive and the counter equals [delta]; return
      if the counter is positive or there are no waiters; otherwise (the
      counter came to zero with waiters parked) read the word again and
      panic (same message) if it has changed, else set the word to zero
      and release the semaphore once per waiter;
    - [Done()] is [Add(-1)];
    - [Wait()]: return if the counter is zero; otherwise add one to the
      waiters and park on the semaphore; once woken, panic ("WaitGroup is
      reused before previous Wait has returned") unless the word is zero.

    The last part of [Add], from the second read on, is one step here. *)

(** The word is set to zero and the waiters are released. *)
Definition wg_release (g : Pool) : Pool :=
  set_sema (sema g + waiters g) (set_waiters 0 (set_wait 0 g)).

(** ** Steps *)

Inductive Label :=
  | CallExecute (f : option TaskBody)  (* some goroutine calls g.Execute(f) *)
  | CallClose (grace : bool)           (* some goroutine calls g.Close(grace) *)
  | SendPending (i j : nat)  (* line 47 of call i meets line 69 of worker j *)
  | SendToken (i : nat)      (* line 48 of call i *)
  | SendPanic (i : nat)      (* the select of call i picks a closed channel *)
  | TimerExpires (j : nat)   (* the runtime expires the timer of worker j *)
  | RecvTimer (j : nat)      (* line 67 of worker j *)
  | RecvClosed (j : nat)     (* line 69 of worker j on the closed channel *)
  | DoneBegins (j : nat)     (* line 57 of worker j: the first operation
                                alone of a Done that brings the counter to
                                zero with waiters parked *)
  | Tick (dt : Z)            (* the clock moves on *)
  | Next (i : nat).          (* the next statement of thread i *)

(** How an [Execute] call returns once its deferred [doRecover] has run
    with the panic [p] in flight. *)
Definition returned (p : option Payload) : EPc :=
  match p with
  | Some WaitGroupMisuse => EAbandoned
  | _ => EDone (bool_decide (p = None))
  end.

(** [Execute], after the select (lines 49-52 and the deferred call). *)
Definition step_executor (i : nat) (pc : EPc) (job : Job) (s : State)
  : option State :=
  match pc with
  | EAdd =>
      match wait (pool s), waiters (pool s) with
      | O, S _ =>
          Some (set_thread i (Executor (EDefer (Some WaitGroupMisuse)) job)
                  (with_pool (set_wait 1 (pool s)) s))
      | _, _ =>
          Some (set_thread i (Executor EGo job)
                  (with_pool (set_wait (S (wait (pool s))) (pool s)) s))
      end
  | EGo =>
      Some (spawn (Worker WNewTimer job no_timer)
              (set_thread i (Executor (EDefer None) job) s))
  | EDefer p =>
      let '(k, p') := doRecover (pool s) p (sink s) in
      Some (set_thread i
              (Executor (match p' with
                         | Some r => ECrashed r
                         | None => returned p
                         end) job)
              (with_sink k s))
  | ESelect | EDone _ | EAbandoned | ECrashed _ => None
  end.

(** [loop], all statements but the receives of the select.  At line 57
    the whole of [Done] runs, with no other operation on the WaitGroup in
    between; [DoneBegins] is the other way to run it. *)
Definition step_worker (j : nat) (pc : WPc) (job : Job) (tm : Timer) (s : State)
  : option State :=
  match pc with
  | WNewTimer =>
      Some (set_thread j
              (Worker WCall job (NewTimer (idleTimeout (pool s)) (now s))) s)
  | WCall =>
      match fn job with
      | Some _ => Some (set_thread j (Worker WBody job tm) (log_start (origin job) s))
      | None => Some (set_thread j (Worker (WDeferStop (Some NilFuncCall)) job tm) s)
      end
  | WBody =>
      match fn job with
      | Some body =>
          match body (ctx_done (pool s)) with
          | None => Some (set_thread j (Worker WSelect job tm) s)
          | Some r => Some (set_thread j (Worker (WDeferStop (Some r)) job tm) s)
          end
      | None => None
      end
  | WSelect => None
  | WStop =>
      let '(stopped, tm') := Stop tm in
      Some (set_thread j (Worker (if stopped then WReset else WDrain) job tm') s)
  | WDrain =>
      if chan tm then Some (set_thread j (Worker WReset job (drain tm)) s)
      else None
  | WReset =>
      Some (set_thread j
              (Worker WCall job (Reset (idleTimeout (pool s)) (now s) tm)) s)
  | WDeferStop p =>
      Some (set_thread j (Worker (WDeferToken p) job (snd (Stop tm))) s)
  | WDeferToken p =>
      match tokens_len (pool s) with
      | S n =>
          Some (set_thread j (Worker (WDeferDone p) job tm)
                  (with_pool (set_tokens_len n (pool s)) s))
      | O =>
          if tokens_closed (pool s)
          then Some (set_thread j (Worker (WDeferDone p) job tm) s)
          else None
      end
  | WDeferDone p =>
      match wait (pool s) with
      | S (S n) =>
          Some (set_thread j (Worker (WDeferRecover p) job tm)
                  (with_pool (set_wait (S n) (pool s)) s))
      | S O =>
          Some (set_thread j (Worker (WDeferRecover p) job tm)
                  (with_pool (wg_release (pool s)) s))
      | O =>
          Some (set_thread j (Worker (WDeferRecover (Some NegativeWaitGroup)) job tm) s)
      end
  | WDoneCheck p w =>
      match wait (pool s) with
      | O =>
          if decide (waiters (pool s) = w)
          then Some (set_thread j (Worker (WDeferRecover p) job tm)
                       (with_pool (wg_release (pool s)) s))
          else Some (set_thread j (Worker (WDeferRecover (Some WaitGroupMisuse)) job tm) s)
      | S _ =>
          Some (set_thread j (Worker (WDeferRecover (Some WaitGroupMisuse)) job tm) s)
      end
  | WDeferRecover p =>
      let '(k, p') := doRecover (pool s) p (sink s) in
      Some (set_thread j
              (Worker (match p' with
                       | Some r => WCrashed r
                       | None => WExited
                       end) job tm)
              (with_sink k s))
  | WExited | WCrashed _ => None
  end.

(** [Close]. Nothing is deferred there, a panic leaves the function. *)
Definition step_closer (i : nat) (pc : CPc) (grace : bool) (s : State)
  : option State :=
  let g := pool s in
  match pc with
  | CLock =>
      if locked g then None
      else Some (set_thread i (Closer CCheck grace) (with_pool (set_locked true g) s))
  | CCheck =>
      Some (set_thread i (Closer (if closed g then CUnlockReturn else CSet) grace) s)
  | CUnlockReturn =>
      if locked g
      then Some (set_thread i (Closer (CDone false) grace)
                   (with_pool (set_locked false g) s))
      else Some (set_thread i (Closer (CCrashed UnlockOfUnlocked) grace) s)
  | CSet =>
      Some (set_thread i (Closer CUnlock grace) (with_pool (set_closed g) s))
  | CUnlock =>
      if locked g
      then Some (set_thread i (Closer CClosePending grace)
                   (with_pool (set_locked false g) s))
      else Some (set_thread i (Closer (CCrashed UnlockOfUnlocked) grace) s)
  | CClosePending =>
      if pending_closed g
      then Some (set_thread i (Closer (CCrashed CloseOfClosed) grace) s)
      else Some (set_thread i (Closer CCloseTokens grace)
                   (with_pool (set_pending_closed g) s))
  | CCloseTokens =>
      if tokens_closed g
      then Some (set_thread i (Closer (CCrashed CloseOfClosed) grace) s)
      else Some (set_thread i (Closer CCancel grace)
                   (with_pool (set_tokens_closed g) s))
  | CCancel =>
      if grace then Some (set_thread i (Closer CWait grace) s)
      else Some (set_thread i (Closer CWait grace)
                   (with_pool (set_cancelled g) s))
  | CWait =>
      match wait g with
      | O => Some (set_thread i (Closer (CDone true) grace) s)
      | S _ =>
          Some (set_thread i (Closer CParked grace)
                  (with_pool (set_waiters (S (waiters g)) g) s))
      end
  | CParked =>
      match sema g with
      | S n =>
          Some (set_thread i (Closer CWoken grace) (with_pool (set_sema n g) s))
      | O => None
      end
  | CWoken =>
      match wait g, waiters g with
      | O, O => Some (set_thread i (Closer (CDone true) grace) s)
      | _, _ => Some (set_thread i (Closer (CCrashed WaitGroupReused) grace) s)
      end
  | CDone _ | CCrashed _ => None
  end.

(** One step of the pool.  [None]: the label is not enabled (the thread is
    blocked there, or is not at that statement). *)
Definition step (s : State) (l : Label) : option State :=
  match l with
  | CallExecute f =>
      Some (spawn (Executor ESelect {| origin := length (threads s); fn := f |}) s)
  | CallClose grace => Some (spawn (Closer CLock grace) s)
  | SendPending i j =>
      match threads s !! i, threads s !! j with
      | Some (Executor ESelect job), Some (Worker WSelect _ tm) =>
          if pending_closed (pool s) then None
          else
            Some (set_thread j
                    (Worker (match fn job with
                             | Some _ => WStop
                             | None => WDeferStop None
                             end) job tm)
                    (set_thread i (Executor (EDefer None) job) s))
      | _, _ => None
      end
  | SendToken i =>
      match threads s !! i with
      | Some (Executor ESelect job) =>
          if tokens_closed (pool s) then None
          else if (Z.of_nat (tokens_len (pool s)) <? concurrent (pool s))%Z
          then Some (set_thread i (Executor EAdd job)
                       (with_pool (set_tokens_len (S (tokens_len (pool s))) (pool s)) s))
          else None
      | _ => None
      end
  | SendPanic i =>
      match threads s !! i with
      | Some (Executor ESelect job) =>
          if pending_closed (pool s) || tokens_closed (pool s)
          then Some (set_thread i (Executor (EDefer (Some SendOnClosed)) job) s)
          else None
      | _ => None
      end
  | TimerExpires j =>
      match threads s !! j with
      | Some (Worker pc job tm) =>
          if active tm && (when tm <=? now s)%Z
          then Some (set_thread j (Worker pc job (expire tm)) s)
          else None
      | _ => None
      end
  | RecvTimer j =>
      match threads s !! j with
      | Some (Worker WSelect job tm) =>
          if chan tm
          then Some (set_thread j (Worker (WDeferStop None) job (drain tm)) s)
          else None
      | _ => None
      end
  | RecvClosed j =>
      match threads s !! j with
      | Some (Worker WSelect job tm) =>
          if pending_closed (pool s)
          then Some (set_thread j (Worker (WDeferStop None) job tm) s)
          else None
      | _ => None
      end
  | DoneBegins j =>
      match threads s !! j with
      | Some (Worker (WDeferDone p) job tm) =>
          match wait (pool s), waiters (pool s) with
          | S O, S w =>
              Some (set_thread j (Worker (WDoneCheck p (S w)) job tm)
                      (with_pool (set_wait 0 (pool s)) s))
          | _, _ => None
          end
      | _ => None
      end
  | Tick dt => if (0 <=? dt)%Z then Some (advance dt s) else None
  | Next i =>
      match threads s !! i with
      | Some (Executor pc job) => step_executor i pc job s
      | Some (Worker pc job tm) => step_worker i pc job tm s
      | Some (Closer pc grace) => step_closer i pc grace s
      | None => None
      end
  end.

(** The label is a statement of a thread of its own, no rendezvous and no
    event of the runtime. *)
Definition own_statement (l : Label) : bool :=
  match l with
  | Next _ => true
  | _ => false
  end.

(** A schedule: the labels in the order they happen. *)
Fixpoint run (s : State) (tr : list Label) : option State :=
  match tr with
  | [] => Some s
  | l :: tr' =>
      match step s l with
      | Some s' => run s' tr'
      | None => None
      end
  end.

(** ** Observations on a state *)

(** The worker is in its loop: between its start and the return (or panic)
    that ends the [for]; the spec's states Running and WaitingForWork. *)
Definition in_loop (t : Thread) : nat :=
  match t with
  | Worker (WNewTimer | WCall | WBody | WSelect | WStop | WDrain | WReset) _ _ => 1
  | _ => 0
  end.

(** The worker is inside a task body. *)
Definition in_body (t : Thread) : nat :=
  match t with
  | Worker WBody _ _ => 1
  | _ => 0
  end.

Definition is_worker (t : Thread) : nat :=
  match t with
  | Worker _ _ _ => 1
  | _ => 0
  end.

(** The thread has put a token in [tokens] that was not taken out yet: an
    [Execute] call between its send and its [go], or the worker that call
    starts, until its deferred receive; a call whose [wait.Add(1)]
    panicked starts no worker, its token stays. *)
Definition holds_token (t : Thread) : nat :=
  match t with
  | Executor (EAdd | EGo | EDefer (Some WaitGroupMisuse) | EAbandoned) _ => 1
  | Worker (WNewTimer | WCall | WBody | WSelect | WStop | WDrain | WReset
            | WDeferStop _ | WDeferToken _) _ _ => 1
  | _ => 0
  end.

(** The thread accounts for one unit of the WaitGroup counter: from
    [wait.Add(1)] to the worker's deferred [wait.Done()]; the unit of a
    call whose [wait.Add(1)] panicked stays. *)
Definition counted (t : Thread) : nat :=
  match t with
  | Executor (EGo | EDefer (Some WaitGroupMisuse) | EAbandoned) _ => 1
  | Worker (WNewTimer | WCall | WBody | WSelect | WStop | WDrain | WReset
            | WDeferStop _ | WDeferToken _ | WDeferDone _) _ _ => 1
  | _ => 0
  end.

(** The [Close] call holds the mutex. *)
Definition in_critical (t : Thread) : nat :=
  match t with
  | Closer (CCheck | CUnlockReturn | CSet | CUnlock) _ => 1
  | _ => 0
  end.

Definition at_set (t : Thread) : nat :=
  match t with
  | Closer CSet _ => 1
  | _ => 0
  end.

(** The [Close] call got past the guard of lines 84-87: it set [closed]
    and runs (or ran) the shutdown sequence of lines 89-97, to its return
    or to the panic of [Wait]. *)
Definition performs_shutdown (t : Thread) : nat :=
  match t with
  | Closer (CUnlock | CClosePending | CCloseTokens | CCancel | CWait
            | CParked | CWoken | CDone true | CCrashed WaitGroupReused) _ => 1
  | _ => 0
  end.

(** The [Close] call has executed [close(g.pending)]. *)
Definition closed_pending (t : Thread) : nat :=
  match t with
  | Closer (CCloseTokens | CCancel | CWait | CParked | CWoken | CDone true
            | CCrashed WaitGroupReused) _ => 1
  | _ => 0
  end.

(** The [Close] call has executed [close(g.tokens)]. *)
Definition closed_tokens (t : Thread) : nat :=
  match t with
  | Closer (CCancel | CWait | CParked | CWoken | CDone true
            | CCrashed WaitGroupReused) _ => 1
  | _ => 0
  end.

(** The [Close] call has executed [g.cancel()]. *)
Definition called_cancel (t : Thread) : nat :=
  match t with
  | Closer (CWait | CParked | CWoken | CDone true
            | CCrashed WaitGroupReused) false => 1
  | _ => 0
  end.

(** A panic left the function of the thread. *)
Definition crashed (t : Thread) : nat :=
  match t with
  | Executor (ECrashed _) _ | Worker (WCrashed _) _ _ | Closer (CCrashed _) _ => 1
  | _ => 0
  end.

(** A panic left the function of the thread, and it is not the panic of
    [Wait] in a [Close] call. *)
Definition faulted (t : Thread) : nat :=
  match t with
  | Closer (CCrashed WaitGroupReused) _ => 0
  | Executor (ECrashed _) _ | Worker (WCrashed _) _ _ | Closer (CCrashed _) _ => 1
  | _ => 0
  end.

(** The [Close] call is parked in [Wait]. *)
Definition at_parked (t : Thread) : nat :=
  match t with
  | Closer CParked _ => 1
  | _ => 0
  end.

(** The timer of a worker in its loop is running or has left its value in
    [timer.C]; at line 75 the value is there, at line 77 the timer is stopped and
    the value is gone.
    [timer_lost] marks a worker for which this fails. *)
Definition timer_lost (t : Thread) : nat :=
  match t with
  | Worker (WCall | WBody | WSelect | WStop) _ tm =>
      if active tm || chan tm then 0 else 1
  | Worker WDrain _ tm => if chan tm then 0 else 1
  | Worker WReset _ tm => if active tm || chan tm then 1 else 0
  | _ => 0
  end.

(** An active timer has nothing in [timer.C]; [timer_stale] marks a worker
    for which this fails. *)
Definition timer_stale (t : Thread) : nat :=
  match t with
  | Worker _ _ tm => if active tm && chan tm then 1 else 0
  | _ => 0
  end.

Definition at_close_pending (t : Thread) : nat :=
  match t with
  | Closer CClosePending _ => 1
  | _ => 0
  end.

Definition at_close_tokens (t : Thread) : nat :=
  match t with
  | Closer CCloseTokens _ => 1
  | _ => 0
  end.

Definition at_cancel (t : Thread) : nat :=
  match t with
  | Closer CCancel _ => 1
  | _ => 0
  end.

Definition thread_job (t : Thread) : option Job :=
  match t with
  | Executor _ job | Worker _ job _ => Some job
  | Closer _ _ => None
  end.

Definition is_job (k : nat) (job : Job) : bool :=
  bool_decide (origin job = k) && bool_decide (fn job ≠ None).

(** The thread has the body that call [k] brought in and the body is still
    to be invoked: the call itself up to its handoff or [go], then the
    worker up to line 64. *)
Definition holds_job (k : nat) (t : Thread) : nat :=
  match t with
  | Executor (ESelect | EAdd | EGo) job => if is_job k job then 1 else 0
  | Worker (WNewTimer | WCall | WStop | WDrain | WReset) job _ =>
      if is_job k job then 1 else 0
  | _ => 0
  end.

(** Call [k] brought in a body and did not fail: it is at its select, or
    one of its two sends went through. *)
Definition owes (k : nat) (t : Thread) : nat :=
  match t with
  | Executor (ESelect | EAdd | EGo | EDefer None | EDone true) job =>
      if is_job k job then 1 else 0
  | _ => 0
  end.

(** The pool has taken the task of the call: it went over [pending], or
    the call is past its [wait.Add(1)].  These are the calls that return
    the pool. *)
Definition taken (pc : EPc) : bool :=
  match pc with
  | EGo | EDefer None | EDone true => true
  | _ => false
  end.

(** The statements the holder of a body still runs up to the call of
    line 64, that call included. *)
Definition call_distance (t : Thread) : nat :=
  match t with
  | Executor EGo _ => 3
  | Worker WStop _ _ => 4
  | Worker WDrain _ _ => 3
  | Worker (WNewTimer | WReset) _ _ => 2
  | Worker WCall _ _ => 1
  | _ => 0
  end.

Definition b2n (b : bool) : nat := if b then 1 else 0.

Definition total (f : Thread → nat) (s : State) : nat :=
  sum_list_with f (threads s).

(** How many times the body of call [k] was invoked. *)
Definition invocations (k : nat) (s : State) : nat :=
  sum_list_with (λ x, b2n (bool_decide (x = k))) (started s).

Definition job_bound (n : nat) (t : Thread) : Prop :=
  match thread_job t with
  | Some job => origin job < n
  | None => True
  end.

(** What holds in every state the pool can reach. *)
Record Inv (s : State) : Prop := {
  inv_tokens : tokens_len (pool s) = total holds_token s;
  inv_cap : (Z.of_nat (tokens_len (pool s)) ≤ concurrent (pool s))%Z;
  inv_wait : wait (pool s) = total counted s;
  inv_lock : total in_critical s = b2n (locked (pool s));
  inv_set : closed (pool s) = true → total at_set s = 0;
  inv_closed : total performs_shutdown s = b2n (closed (pool s));
  inv_pending : total closed_pending s = b2n (pending_closed (pool s));
  inv_tokens_closed : total closed_tokens s = b2n (tokens_closed (pool s));
  inv_cancel : total called_cancel s = b2n (cancelled (pool s));
  inv_crash : total faulted s = 0;
  inv_sema : waiters (pool s) + sema (pool s) = total at_parked s;
  inv_timer : total timer_lost s = 0;
  inv_stale : total timer_stale s = 0;
  inv_origin : Forall (job_bound (length (threads s))) (threads s);
  inv_owes : ∀ k, total (owes k) s ≤ 1;
  inv_jobs : ∀ k, total (holds_job k) s + invocations k s = total (owes k) s
}.

(** ** Control flow of one thread *)

#[global] Instance Payload_eq_dec : EqDecision Payload.
Proof. solve_decision. Defined.

(** Whether a thread is a [Close] call at a given statement can be
    decided (threads as such cannot be compared: they hold funcs). *)
#[global] Instance closer_at_dec (o : option Thread) pc grace :
  Decision (o = Some (Closer pc grace)).
Proof.
  destruct o as [[| |pc' grace']|]; try (right; congruence).
  destruct (decide (grace' = grace)) as [->|]; [|right; congruence].
  assert (Decision (pc' = pc)) as [->|] by solve_decision;
    [by left|right; congruence].
Defined.

(** The statement order of [Execute]. *)
Definition e_follows (pc pc' : EPc) : bool :=
  match pc, pc' with
  | ESelect, (EAdd | EDefer _) => true
  | EAdd, (EGo | EDefer (Some WaitGroupMisuse)) => true
  | EGo, EDefer None => true
  | EDefer None, EDone true => true
  | EDefer (Some _), (EDone false | EAbandoned | ECrashed _) => true
  | _, _ => false
  end.

(** The statement order of [loop]. *)
Definition w_follows (pc pc' : WPc) : bool :=
  match pc, pc' with
  | WNewTimer, WCall => true
  | WCall, (WBody | WDeferStop (Some _)) => true
  | WBody, (WSelect | WDeferStop (Some _)) => true
  | WSelect, (WStop | WDeferStop None) => true
  | WStop, (WReset | WDrain) => true
  | WDrain, WReset => true
  | WReset, WCall => true
  | WDeferStop p, WDeferToken p' => bool_decide (p' = p)
  | WDeferToken p, WDeferDone p' => bool_decide (p' = p)
  | WDeferDone _, (WDeferRecover _ | WDoneCheck _ _) => true
  | WDoneCheck _ _, WDeferRecover _ => true
  | WDeferRecover None, WExited => true
  | WDeferRecover (Some _), (WExited | WCrashed _) => true
  | _, _ => false
  end.

(** The statement order of [Close]. *)
Definition c_follows (pc pc' : CPc) : bool :=
  match pc, pc' with
  | CLock, CCheck => true
  | CCheck, (CUnlockReturn | CSet) => true
  | CUnlockReturn, (CDone false | CCrashed _) => true
  | CSet, CUnlock => true
  | CUnlock, (CClosePending | CCrashed _) => true
  | CClosePending, (CCloseTokens | CCrashed _) => true
  | CCloseTokens, (CCancel | CCrashed _) => true
  | CCancel, CWait => true
  | CWait, (CDone true | CParked) => true
  | CParked, CWoken => true
  | CWoken, (CDone true | CCrashed _) => true
  | _, _ => false
  end.

(** Thread [t] becomes [t'] by one of its own statements.  A call keeps
    its argument; a worker changes its job only at line 69. *)
Definition follows (t t' : Thread) : Prop :=
  match t, t' with
  | Executor pc job, Executor pc' job' => job' = job ∧ e_follows pc pc' = true
  | Worker pc job _, Worker pc' job' _ =>
      w_follows pc pc' = true ∧ (job' = job ∨ pc = WSelect)
  | Closer pc grace, Closer pc' grace' => grace' = grace ∧ c_follows pc pc' = true
  | _, _ => False
  end.

(** The runtime expired the timer of the worker. *)
Definition expired (t t' : Thread) : Prop :=
  match t, t' with
  | Worker pc job tm, Worker pc' job' tm' =>
      pc' = pc ∧ job' = job ∧ active tm = true ∧ tm' = expire tm
  | _, _ => False
  end.

(** The first state of a goroutine. *)
Definition born (n : nat) (t : Thread) : Prop :=
  match t with
  | Executor pc job => pc = ESelect ∧ origin job = n
  | Worker pc _ _ => pc = WNewTimer
  | Closer pc _ => pc = CLock
  end.

(** The worker has left its loop for good. *)
Definition left_loop (t : Thread) : bool :=
  match t with
  | Worker (WDeferStop _ | WDeferToken _ | WDeferDone _ | WDoneCheck _ _
            | WDeferRecover _ | WExited | WCrashed _) _ _ => true
  | _ => false
  end.

(** The worker has run its deferred [wait.Done()], to its end or up to
    the operation that brought the counter to zero. *)
Definition past_done (t : Thread) : bool :=
  match t with
  | Worker (WDoneCheck _ _ | WDeferRecover _ | WExited | WCrashed _) _ _ => true
  | _ => false
  end.

(** Every call of [Execute] carries the index it was made at. *)
Definition indexed (s : State) : Prop :=
  ∀ i pc job, threads s !! i = Some (Executor pc job) → origin job = i.

(** A pool nobody has used yet. *)
Definition fresh (p : Pool) : Prop :=
  pending_closed p = false ∧ tokens_len p = 0 ∧ tokens_closed p = false
  ∧ closed p = false ∧ cancelled p = false ∧ locked p = false ∧ wait p = 0
  ∧ waiters p = 0 ∧ sema p = 0.

(** The call ended in a panic. *)
Definition failed (t : Thread) : nat :=
  match t with
  | Executor (EDefer (Some _) | EDone false | EAbandoned | ECrashed _) _ => 1
  | _ => 0
  end.

(** While both channels are open no call of [Execute] has failed. *)
Definition open_no_failure (s : State) : Prop :=
  pending_closed (pool s) = false → tokens_closed (pool s) = false →
  total failed s = 0.

(** The schedule of a handoff to worker [j] seen from that worker: the
    rendezvous of lines 47 and 69, [timer.Stop()], the receive of line 75
    when [Stop] returned false, and [timer.Reset]. *)
Definition handoff_schedule (i j : nat) (tm : Timer) : list Label :=
  SendPending i j :: Next j :: (if active tm then [] else [Next j]) ++ [Next j].

(** The timer of the thread, if it is running, is set for an instant not
    later than [bound]. *)
Definition timer_due (bound : Z) (t : Thread) : Prop :=
  match t with
  | Worker _ _ tm => active tm = true → (when tm ≤ bound)%Z
  | _ => True
  end.

(** No running timer is set for later than [idleTimeout] from now. *)
Definition timers_due (s : State) : Prop :=
  Forall (timer_due (now s + idleTimeout (pool s))) (threads s).

(** A worker waits at its select for [dt] and no task comes; then the
    runtime expires its timer, if that has not happened before, the select
    takes the timer case and the four deferred calls run. *)
Definition timeout_schedule (j : nat) (tm : Timer) (dt : Z) : list Label :=
  Tick dt :: (if active tm then [TimerExpires j] else [])
  ++ RecvTimer j :: replicate 4 (Next j).

(** ** Sample schedules *)

(** A body that returns and a body that panics. *)
Definition ok : TaskBody := λ _, None.
Definition boom : TaskBody := λ _, Some (UserPanic 7).

(** A handler that keeps what it is given. *)
Definition keep : Handler := cons.

(** [NewPool(WithConcurrent(1), WithRecover(keep))]. *)
Definition opts1 : list PoolOpt := [WithConcurrent 1; WithRecover (Some keep)].
Definition pool1 : Pool := default default_pool (NewPool opts1).

(** The timer of a worker of [pool1] that starts at instant 0. *)
Definition timer0 : Timer := NewTimer second 0.

Definition after (tr : list Label) : State :=
  default (init pool1) (run (init pool1) tr).

(** [Execute(f)] as call 0 gets the token and starts worker 1, which comes
    to the body of [f]. *)
Definition start_schedule (f : TaskBody) : list Label :=
  [CallExecute (Some f); SendToken 0; Next 0; Next 0; Next 0; Next 1; Next 1].

(** Worker 1 is inside [ok]. *)
Definition running_schedule : list Label := start_schedule ok.
(** Worker 1 is inside [boom]. *)
Definition panic_schedule : list Label := start_schedule boom.
(** [ok] has returned, worker 1 is at its select. *)
Definition idle_schedule : list Label := running_schedule ++ [Next 1].
(** The panic of [boom] has left line 64. *)
Definition unwinding_schedule : list Label := panic_schedule ++ [Next 1].

(** A [Close] call that is thread [i] runs lines 83-96 and stands at
    [g.wait.Wait()]. *)
Definition close_to_wait (i : nat) : list Label := replicate 7 (Next i).
(** A [Close] call that is thread [i] locks, reads the flag as true,
    unlocks and returns. *)
Definition close_noop (i : nat) : list Label := replicate 3 (Next i).

(** While worker 1 is inside [ok], [Close(true)] is called (thread 2) and
    waits. *)
Definition waiting_schedule : list Label :=
  running_schedule ++ CallClose true :: close_to_wait 2.
(** Then [Close(true)] is called once more (thread 3). *)
Definition second_close : list Label := CallClose true :: close_noop 3.

(** On an unused pool [Close(true)] runs to its end (thread 0). *)
Definition graceful_schedule : list Label :=
  CallClose true :: close_to_wait 0 ++ [Next 0].
(** Then [Close(false)] is called (thread 1). *)
Definition then_ungraceful : list Label := CallClose false :: close_noop 1.
(** On an unused pool [Close(false)] comes to [g.wait.Wait()]. *)
Definition ungraceful_schedule : list Label :=
  CallClose false :: close_to_wait 0.
(** [Close(true)] is done, a second call holds the mutex at line 84. *)
Definition recheck_schedule : list Label :=
  graceful_schedule ++ [CallClose false; Next 1].
(** [Close(true)] is done, then [Execute(ok)] is called (thread 1). *)
Definition late_schedule : list Label :=
  graceful_schedule ++ [CallExecute (Some ok)].
(** Worker 1 is idle and [Execute(nil)] is called (thread 2). *)
Definition nil_schedule : list Label := idle_schedule ++ [CallExecute None].

(** Worker 1 is idle and [Execute(ok)] is called (thread 2). *)
Definition ready_schedule : list Label := idle_schedule ++ [CallExecute (Some ok)].
(** Worker 1 is idle, a second later its timer has expired. *)
Definition expired_schedule : list Label :=
  idle_schedule ++ [Tick second; TimerExpires 1].

(** The job of call 0 in the schedules above. *)
Definition job0 (f : TaskBody) : Job := {| origin := 0; fn := Some f |}.


(** Worker [w] at its select finds [pending] closed and runs its four
    deferred calls; the [Close] call [c] parked in [Wait] is woken and
    returns. *)
Definition release_schedule (w c : nat) : list Label :=
  RecvClosed w :: replicate 4 (Next w) ++ [Next c; Next c].
(** After [waiting_schedule]: the [Close] call parks in [Wait], [ok]
    returns, worker 1 ends and the [Close] call returns. *)
Definition finish_schedule : list Label :=
  Next 2 :: Next 1 :: release_schedule 1 2.
(** Worker 1 is inside [ok] (capacity 1) and [Execute(ok)] is called once
    more (thread 2): the call blocks at its select. *)
Definition blocked_schedule : list Label :=
  running_schedule ++ [CallExecute (Some ok)].
(** Then [Close(true)] is called (thread 3) and comes to [Wait]; the
    select of thread 2 fails on a closed channel and the call returns;
    then the [Close] call parks, [ok] returns, worker 1 ends and the
    [Close] call returns. *)
Definition dropped_blocked_schedule : list Label :=
  blocked_schedule ++ CallClose true :: close_to_wait 3
  ++ [SendPanic 2; Next 2; Next 3; Next 1] ++ release_schedule 1 3.
(** Worker 1 is inside [boom]; [Close(true)] (thread 2) comes to [Wait]
    and parks; [boom] panics and worker 1 runs its deferred calls up to
    [wait.Done()]; the [Close] call is woken and returns. *)
Definition early_return_schedule : list Label :=
  panic_schedule ++ CallClose true :: close_to_wait 2
  ++ Next 2 :: replicate 4 (Next 1) ++ [Next 2; Next 2].

(** ** Reading the options *)

Definition opt_concurrent (o : PoolOpt) : option Z :=
  match o with WithConcurrent n => Some n | _ => None end.
Definition opt_idleTimeout (o : PoolOpt) : option Z :=
  match o with WithIdleTimeout d => Some d | _ => None end.
Definition opt_recover (o : PoolOpt) : option (option Handler) :=
  match o with WithRecover f => Some f | _ => None end.
Definition opt_ctx (o : PoolOpt) : option bool :=
  match o with WithCtx c => Some c | _ => None end.

(** The value of the last option of one kind, [d] when there is none. *)
Definition last_setting {A} (pick : PoolOpt → option A) (d : A)
  (opts : list PoolOpt) : A :=
  default d (last (omap pick opts)).

(** ** More observations *)

(** An [Execute] call got further than its select without failing on a
    closed channel, or a worker exists. *)
Definition progressed (t : Thread) : nat :=
  match t with
  | Executor (ESelect | EDefer (Some SendOnClosed) | EDone false) _ => 0
  | Executor _ _ => 1
  | Worker _ _ _ => 1
  | Closer _ _ => 0
  end.

(** The ways an [Execute] call can be when its task is not taken: still at
    its select, unwinding from the send on a closed channel, or returned
    nil. *)
Definition not_taken (pc : EPc) : bool :=
  match pc with
  | ESelect | EDefer (Some SendOnClosed) | EDone false => true
  | _ => false
  end.

(** The goroutine has ended. *)
Definition finished (t : Thread) : bool :=
  match t with
  | Executor (EDone _) _ | Worker WExited _ _ | Closer (CDone _) _ => true
  | _ => false
  end.

(** An upper bound on the statements a thread still runs before its
    [wait.Done()], when [pending] is closed; 0 for a thread that will run
    none: one that is not counted, or a call whose [wait.Add(1)]
    panicked. *)
Definition exit_distance (t : Thread) : nat :=
  match t with
  | Executor EGo _ => 8
  | Worker pc _ _ =>
      match pc with
      | WStop => 9
      | WDrain => 8
      | WReset | WNewTimer => 7
      | WCall => 6
      | WBody => 5
      | WSelect => 4
      | WDeferStop _ => 3
      | WDeferToken _ => 2
      | WDeferDone _ => 1
      | WDoneCheck _ _ | WDeferRecover _ | WExited | WCrashed _ => 0
      end
  | _ => 0
  end.

(** Nothing the select of call [i] could do is enabled. *)
Definition select_blocked (i : nat) (s : State) : Prop :=
  step s (SendToken i) = None ∧ step s (SendPanic i) = None
  ∧ ∀ j, step s (SendPending i j) = None.

(** [NewPool(WithConcurrent(0))]. *)
Definition opts0 : list PoolOpt := [WithConcurrent 0].
Definition pool0 : Pool := default default_pool (NewPool opts0).

(** A worker inside a body it does not have. *)
Definition body_missing (t : Thread) : nat :=
  match t with
  | Worker WBody job _ => match fn job with Some _ => 0 | None => 1 end
  | _ => 0
  end.

(** [Execute(nil)] takes a token: the call (thread [i]) runs lines 48-52
    and returns, then the worker it started (thread [w]) runs from line 60
    to its end. *)
Definition nil_spawn_schedule (i w : nat) : list Label :=
  [SendToken i; Next i; Next i; Next i; Next w; Next w] ++ replicate 4 (Next w).

(** A [Close] call (thread [c]) leaves [g.wait.Wait()] and returns; then
    an [Execute] call (thread [i]) that had sent its token runs lines
    49-50, and the worker it starts (thread [w]) comes into the body. *)
Definition late_start_schedule (c i w : nat) : list Label :=
  [Next c; Next i; Next i; Next w; Next w].

(** More sample schedules. *)

(** On the pool of capacity 0: [Execute(ok)] (thread 0), then [Close(true)]
    to its end (thread 1), then the select of thread 0 fails and the call
    returns. *)
Definition starved_schedule : list Label :=
  CallExecute (Some ok) :: CallClose true :: replicate 8 (Next 1)
  ++ [SendPanic 0; Next 0].
(** After [late_schedule] the select of thread 1 fails and the call
    returns. *)
Definition dropped_schedule : list Label := late_schedule ++ [SendPanic 1; Next 1].
(** Worker 1 is idle with an expired timer and is handed a task by thread
    2: [timer.Stop()] has returned false. *)
Definition drain_schedule : list Label :=
  expired_schedule ++ [CallExecute (Some ok); SendPending 2 1; Next 1].
(** [boom] has panicked and worker 1 has run all its deferred calls. *)
Definition spent_schedule : list Label :=
  unwinding_schedule ++ replicate 4 (Next 1).
(** Thread 0 has sent its token; [Close(true)] (thread 1) stands at
    [g.wait.Wait()] with the counter still zero. *)
Definition race_schedule : list Label :=
  [CallExecute (Some ok); SendToken 0; CallClose true] ++ close_to_wait 1.


(** [NewPool(WithConcurrent(2), WithRecover(keep))]. *)
Definition opts2 : list PoolOpt := [WithConcurrent 2; WithRecover (Some keep)].
Definition pool2 : Pool := default default_pool (NewPool opts2).

Definition after2 (tr : list Label) : State :=
  default (init pool2) (run (init pool2) tr).

(** On the pool of capacity 2: worker 1 is inside [ok]; a second
    [Execute(ok)] (thread 2) has sent its token; [Close(true)] (thread 3)
    has parked in [Wait]; [ok] has returned and worker 1 has run its
    deferred calls up to [wait.Done()]. *)
Definition last_done_schedule : list Label :=
  start_schedule ok ++ [CallExecute (Some ok); SendToken 2; CallClose true]
  ++ close_to_wait 3 ++ [Next 3; Next 1; RecvClosed 1; Next 1; Next 1].
(** Then the [Done] of worker 1 brings the counter to zero, and before it
    reads the counter again [wait.Add(1)] of thread 2 comes in. *)
Definition misuse_schedule : list Label :=
  last_done_schedule ++ [DoneBegins 1; Next 2].
(** Both panics are recovered: worker 1 ends, thread 2 returns. *)
Definition abandoned_schedule : list Label :=
  misuse_schedule ++ [Next 1; Next 1; Next 2].
(** Or else the [Done] of worker 1 runs to its end and releases the
    [Close] call. *)
Definition released_schedule : list Label := last_done_schedule ++ [Next 1].

(** The call has panicked in [wait.Add(1)]. *)
Definition abandoned (t : Thread) : nat :=
  match t with
  | Executor (EDefer (Some WaitGroupMisuse) | EAbandoned) _ => 1
  | _ => 0
  end.

(** The worker is inside [Done], after the operation that brought the
    counter to zero and before the second read. *)
Definition in_window (t : Thread) : nat :=
  match t with
  | Worker (WDoneCheck _ _) _ _ => 1
  | _ => 0
  end.

(** The worker is there and the waiters it saw are none, or are not the
    [v] there are now. *)
Definition window_off (v : nat) (t : Thread) : nat :=
  match t with
  | Worker (WDoneCheck _ w) _ _ =>
      match w with
      | O => 1
      | S _ => if decide (w = v) then 0 else 1
      end
  | _ => 0
  end.

(** More of what holds of the WaitGroup in every state the pool can
    reach: at most one worker is inside a [Done] that brought the counter
    to zero; while the counter is zero it has seen the waiters there are;
    waiters are parked only while the counter is positive or a worker is
    inside such a [Done]; and the counter is positive during such a [Done]
    only when an [Add] has panicked. *)
Record WgInv (s : State) : Prop := {
  wg_one : total in_window s ≤ 1;
  wg_seen : 0 < wait (pool s) ∨ total (window_off (waiters (pool s))) s = 0;
  wg_waiters : waiters (pool s) = 0 ∨ 0 < wait (pool s) ∨ 0 < total in_window s;
  wg_late : total in_window s = 0 ∨ wait (pool s) = 0 ∨ 0 < total abandoned s
}.

(** A step that is not an [Add] and does not take a [Done] apart keeps
    the calls that have panicked in [Add] and the workers inside a [Done]
    as they are. *)
Definition calm (s s' : State) : Prop :=
  total abandoned s' = total abandoned s
  ∧ total in_window s' ≤ total in_window s
  ∧ pending_closed (pool s') = pending_closed (pool s)
  ∧ ∀ i pc gr, threads s !! i = Some (Closer pc gr) →
      threads s' !! i = Some (Closer pc gr).
(** * Proofs *)

Section Sums.
Context {A : Type}.
Implicit Types (f : A → nat) (l : list A).

Lemma sum_insert l i t t' :
  l !! i = Some t →
  ∀ f, sum_list_with f (<[i:=t']> l) + f t = sum_list_with f l + f t'.
Proof.
  revert i. induction l as [|x l IH]; intros [|i] Hi f; simplify_eq/=.
  - lia.
  - specialize (IH i Hi f). lia.
Qed.

Lemma sum_insert2 l i j ti tj ti' tj' :
  l !! i = Some ti → l !! j = Some tj → i ≠ j →
  ∀ f, sum_list_with f (<[j:=tj']> (<[i:=ti']> l)) + (f ti + f tj)
       = sum_list_with f l + (f ti' + f tj').
Proof.
  intros Hi Hj Hne f.
  assert (Hj' : <[i:=ti']> l !! j = Some tj) by by rewrite list_lookup_insert_ne.
  pose proof (sum_insert _ _ _ tj' Hj' f). pose proof (sum_insert _ _ _ ti' Hi f). lia.
Qed.

Lemma sum_insert_snoc l i t t' u :
  l !! i = Some t →
  ∀ f, sum_list_with f (<[i:=t']> l ++ [u]) + f t = sum_list_with f l + (f t' + f u).
Proof.
  intros Hi f. rewrite sum_list_with_app. simpl.
  pose proof (sum_insert _ _ _ t' Hi f). lia.
Qed.

Lemma sum_snoc l u : ∀ f, sum_list_with f (l ++ [u]) = sum_list_with f l + f u.
Proof. intros f. rewrite sum_list_with_app. simpl. lia. Qed.

Lemma sum_lookup_le l i t f : l !! i = Some t → f t ≤ sum_list_with f l.
Proof. intros Hi. apply sum_list_with_in. by eapply list_elem_of_lookup_2. Qed.

Lemma sum_pointwise_le f g h l :
  (∀ x, f x + g x ≤ h x) →
  sum_list_with f l + sum_list_with g l ≤ sum_list_with h l.
Proof. intros Hle. induction l as [|x l IH]; simpl; [lia|]. specialize (Hle x). lia. Qed.

Lemma sum_zero f l : Forall (λ x, f x = 0) l → sum_list_with f l = 0.
Proof. induction 1; simpl; lia. Qed.
End Sums.

Lemma at_set_le_critical l :
  sum_list_with at_set l ≤ sum_list_with in_critical l.
Proof.
  induction l as [|[| |[] ?] l IH]; simpl; lia.
Qed.

Lemma pending_le_shutdown l :
  sum_list_with closed_pending l + sum_list_with at_close_pending l
  ≤ sum_list_with performs_shutdown l.
Proof. apply sum_pointwise_le. intros [| |[] ?]; simpl; repeat case_match; lia. Qed.

Lemma tokens_le_shutdown l :
  sum_list_with closed_tokens l + sum_list_with at_close_tokens l
  ≤ sum_list_with performs_shutdown l.
Proof. apply sum_pointwise_le. intros [| |[] ?]; simpl; repeat case_match; lia. Qed.

Lemma cancel_le_shutdown l :
  sum_list_with called_cancel l + sum_list_with at_cancel l
  ≤ sum_list_with performs_shutdown l.
Proof. apply sum_pointwise_le. intros [| |[] []]; simpl; repeat case_match; lia. Qed.

Lemma parked_le_shutdown l :
  sum_list_with at_parked l ≤ sum_list_with performs_shutdown l.
Proof. induction l as [|[| |[] ?] l IH]; simpl; lia. Qed.

Lemma crashed_le_faulted l :
  sum_list_with crashed l
  ≤ sum_list_with faulted l + sum_list_with performs_shutdown l.
Proof.
  induction l as [|[[]| |[] ?] l IH]; simpl; repeat case_match; simpl; lia.
Qed.

Lemma b2n_le b : b2n b ≤ 1.
Proof. destruct b; simpl; lia. Qed.

Lemma fresh_origin n l k :
  Forall (job_bound n) l → n ≤ k →
  sum_list_with (owes k) l = 0 ∧ sum_list_with (holds_job k) l = 0.
Proof.
  intros HF Hk. split; apply sum_zero; eapply Forall_impl; [exact HF| |exact HF|];
    intros [pc job|pc job tm|pc gr] Hb; simpl in *; try done;
    unfold job_bound in Hb; simpl in Hb; unfold is_job;
    (rewrite bool_decide_eq_false_2 by lia); simpl; repeat case_match; done.
Qed.

Ltac delta :=
  match goal with
  | Hi : ?l !! ?i = Some ?ti, Hj : ?l !! ?j = Some ?tj
    |- context [<[?j := ?tj']> (<[?i := ?ti']> ?l)] =>
      pose proof (sum_insert2 l i j ti tj ti' tj' Hi Hj ltac:(intros ->; congruence)) as HD
  | Hi : ?l !! ?i = Some ?t |- context [<[?i := ?t']> ?l ++ [?u]] =>
      pose proof (sum_insert_snoc l i t t' u Hi) as HD
  | Hi : ?l !! ?i = Some ?t |- context [<[?i := ?t']> ?l] =>
      pose proof (sum_insert l i t t' Hi) as HD
  | |- context [@app Thread ?l [?u]] => pose proof (sum_snoc l u) as HD
  end.

Ltac weigh f := match goal with HD : ∀ f : Thread → nat, _ |- _ => pose proof (HD f) end.

Ltac weigh_all :=
  weigh holds_token; weigh counted; weigh in_critical; weigh at_set;
  weigh performs_shutdown; weigh closed_pending; weigh closed_tokens;
  weigh called_cancel; weigh faulted; weigh at_parked; weigh timer_lost;
  weigh timer_stale;
  weigh at_close_pending; weigh at_close_tokens; weigh at_cancel.

Ltac use_flag :=
  match goal with
  | I5 : closed ?g = true → _ |- _ =>
      destruct (closed g) eqn:?; simplify_eq; try specialize (I5 eq_refl)
  | I5 : true = true → _ |- _ => specialize (I5 eq_refl)
  | _ => idtac
  end.

Ltac weigh_goal :=
  lazymatch goal with
  | |- context [sum_list_with holds_token _] => weigh holds_token
  | |- context [sum_list_with counted _] => weigh counted
  | |- context [sum_list_with in_critical _] => weigh in_critical
  | |- context [sum_list_with at_set _] =>
      weigh at_set; weigh in_critical; weigh performs_shutdown
  | |- context [sum_list_with performs_shutdown _] =>
      weigh performs_shutdown; weigh at_set; weigh in_critical
  | |- context [sum_list_with closed_pending _] =>
      weigh closed_pending; weigh at_close_pending; weigh performs_shutdown
  | |- context [sum_list_with closed_tokens _] =>
      weigh closed_tokens; weigh at_close_tokens; weigh performs_shutdown
  | |- context [sum_list_with called_cancel _] =>
      weigh called_cancel; weigh at_cancel; weigh performs_shutdown
  | |- context [sum_list_with at_parked _] =>
      weigh at_parked; weigh counted; weigh performs_shutdown
  | |- context [sum_list_with faulted _] =>
      weigh faulted; weigh in_critical; weigh performs_shutdown;
      weigh closed_pending; weigh at_close_pending;
      weigh closed_tokens; weigh at_close_tokens
  | |- context [sum_list_with timer_lost _] => weigh timer_lost; weigh timer_stale
  | |- context [sum_list_with timer_stale _] => weigh timer_stale; weigh timer_lost
  | |- _ => weigh_all
  end.

Ltac numeric_with weighing :=
  repeat match goal with
         | H : ∀ k : nat, _ |- _ => clear H
         | H : Forall _ _ |- _ => clear H
         end;
  try match goal with H : (_ <? _)%Z = true |- _ => apply Z.ltb_lt in H end;
  try (intros Hc; simpl in Hc; try congruence);
  weighing; use_flag;
  repeat match goal with
         | H : ?x = true |- context [b2n ?x] => rewrite H
         | H : ?x = false |- context [b2n ?x] => rewrite H
         end;
  simpl in *; repeat case_match; simplify_eq; simpl in *;
  first [lia | repeat match goal with tm : Timer |- _ => destruct tm as [[] [] ?] end;
               simpl in *; simplify_eq; lia].

Ltac numeric_fast :=
  repeat match goal with
         | H : ∀ k : nat, _ |- _ => clear H
         | H : Forall _ _ |- _ => clear H
         end;
  weigh_goal;
  repeat match goal with
         | H : ?x = true |- context [b2n ?x] => rewrite H
         | H : ?x = false |- context [b2n ?x] => rewrite H
         end;
  simpl in *; lia.

Ltac numeric :=
  first [solve [numeric_fast] | solve [numeric_with weigh_goal]
        | numeric_with weigh_all].

Ltac bound_old :=
  match goal with
  | I12 : Forall (job_bound _) ?l, Hi : ?l !! _ = Some _ |- _ =>
      pose proof (Forall_lookup_1 _ _ _ _ I12 Hi); clear Hi; bound_old
  | _ => idtac
  end.

Ltac origins :=
  rewrite ?length_app, ?length_insert; bound_old;
  repeat first [apply Forall_app; split | apply Forall_insert | apply Forall_cons; split
               | apply Forall_nil];
  try (eapply Forall_impl; [eassumption|]; intros [] ?);
  unfold job_bound in *; simpl in *; try done; try lia.

Ltac jobs :=
  let k := fresh "k" in
  intros k;
  repeat match goal with I : ∀ k : nat, _ |- _ => specialize (I k) end;
  weigh (owes k); weigh (holds_job k);
  try match goal with
      | |- context [sum_list_with (λ x, b2n (bool_decide (x = k))) (?st ++ ?l)] =>
          rewrite (sum_list_with_app _ st l)
      end;
  try match goal with
      | I12 : Forall (job_bound (length ?l)) ?l, HD : context [Build_Job (length ?l)] |- _ =>
          destruct (decide (length l ≤ k));
          [destruct (fresh_origin _ _ k I12); [done|]|]
      end;
  simpl in *; unfold is_job in *; simpl in *;
  repeat case_match; repeat case_bool_decide; simplify_eq; simpl in *;
  first [lia | congruence].

Lemma step_inv s l s' : Inv s → step s l = Some s' → Inv s'.
Proof.
  intros HI Hs. destruct s as [g ths st sk nw].
  pose proof (at_set_le_critical ths) as Hsc.
  pose proof (pending_le_shutdown ths) as Hps.
  pose proof (tokens_le_shutdown ths) as Hts.
  pose proof (cancel_le_shutdown ths) as Hcs.
  pose proof (b2n_le (locked g)); pose proof (b2n_le (closed g)).
  pose proof (parked_le_shutdown ths) as Hpk.
  destruct HI as [I1 I2 I3 I4 I5 I6 I7 I8 I9 I10 I10' I11 I11' I12 I13 I14].
  unfold total, invocations in *. simpl in *.
  destruct l; simpl in Hs;
    unfold step_executor, step_worker, step_closer, doRecover, returned in Hs;
    simpl in Hs; repeat case_match; simplify_eq;
    unfold set_thread, spawn, with_pool, with_sink, log_start, advance; simpl;
    try delta.
  all: split; unfold total, invocations; simpl.
  all: try (solve [numeric]).
  all: try (solve [origins]).
  all: try (solve [jobs]).
Qed.

Lemma apply_opt_fresh p o p' : apply_opt p o = Some p' → fresh p → fresh p'.
Proof. unfold fresh. destruct o; intros ? H; simplify_eq/=; apply H. Qed.

Lemma apply_opts_fresh opts p p' :
  apply_opts p opts = Some p' → fresh p → fresh p'.
Proof.
  revert p. induction opts as [|o opts IH]; intros p H Hp; simpl in H.
  - by simplify_eq.
  - destruct (apply_opt p o) as [p1|] eqn:Ho; [|done].
    eapply IH; [done|]. by eapply apply_opt_fresh.
Qed.

(** [NewPool] gives a fresh pool whose capacity is not negative. *)
Lemma NewPool_fresh opts g :
  NewPool opts = Some g → fresh g ∧ (0 ≤ concurrent g)%Z.
Proof.
  unfold NewPool. intros H.
  destruct (apply_opts default_pool opts) as [p|] eqn:Ho; [|done].
  case_match eqn:Hc; simplify_eq.
  apply Z.ltb_ge in Hc. split; [|done].
  eapply apply_opts_fresh; [done|]. by repeat split.
Qed.

Lemma init_inv opts g : NewPool opts = Some g → Inv (init g).
Proof.
  intros [(Hp&Hl&Ht&Hc&Hx&Hk&Hw&Hws&Hse) Hcap]%NewPool_fresh.
  split; unfold total, invocations; simpl; try intros;
    rewrite ?Hp, ?Hl, ?Ht, ?Hc, ?Hx, ?Hk, ?Hw, ?Hws, ?Hse; simpl; done || lia.
Qed.

Lemma run_inv s tr s' : Inv s → run s tr = Some s' → Inv s'.
Proof.
  revert s. induction tr as [|l tr IH]; intros s HI Hr; simpl in Hr.
  - by simplify_eq.
  - destruct (step s l) as [s1|] eqn:Hs; [|done].
    eapply IH; [|done]. by eapply step_inv.
Qed.

Lemma run_app s tr1 tr2 :
  run s (tr1 ++ tr2) = match run s tr1 with Some s1 => run s1 tr2 | None => None end.
Proof.
  revert s. induction tr1 as [|l tr1 IH]; intros s; simpl; [done|].
  destruct (step s l); [apply IH|done].
Qed.

Lemma reachable_inv opts g tr s :
  NewPool opts = Some g → run (init g) tr = Some s → Inv s.
Proof. intros Hg Hr. eapply run_inv; [|done]. by eapply init_inv. Qed.

(** What no statement of pool.go writes after [NewPool]. *)
Lemma step_const s l s' :
  step s l = Some s' →
  concurrent (pool s') = concurrent (pool s)
  ∧ recoverFunc (pool s') = recoverFunc (pool s)
  ∧ ctx_parent_done (pool s') = ctx_parent_done (pool s)
  ∧ idleTimeout (pool s') = idleTimeout (pool s).
Proof.
  intros Hs. destruct l; simpl in Hs;
    unfold step_executor, step_worker, step_closer, doRecover, returned in Hs;
    simpl in Hs; repeat case_match; by simplify_eq.
Qed.

Lemma run_const s tr s' :
  run s tr = Some s' →
  concurrent (pool s') = concurrent (pool s)
  ∧ recoverFunc (pool s') = recoverFunc (pool s)
  ∧ ctx_parent_done (pool s') = ctx_parent_done (pool s)
  ∧ idleTimeout (pool s') = idleTimeout (pool s).
Proof.
  revert s. induction tr as [|l tr IH]; intros s Hr; simpl in Hr.
  - by simplify_eq.
  - destruct (step s l) as [s1|] eqn:Hs; [|done].
    destruct (step_const _ _ _ Hs) as (?&?&?&?).
    destruct (IH _ Hr) as (?&?&?&?). repeat split; congruence.
Qed.

(** Threads are never removed or reordered: after a step, thread [j] is
    what it was, or it made one move of its own, or its timer expired, or
    it is the goroutine this step started. *)
Lemma step_lookup s l s' j t' :
  step s l = Some s' → threads s' !! j = Some t' →
  threads s !! j = Some t'
  ∨ (∃ t, threads s !! j = Some t ∧ (follows t t' ∨ expired t t'))
  ∨ (j = length (threads s) ∧ born j t').
Proof.
  intros Hs Hj. destruct s as [g ths st sk nw].
  destruct l; simpl in Hs;
    unfold step_executor, step_worker, step_closer, doRecover, returned in Hs;
    simpl in Hs; repeat case_match; simplify_eq; simpl in *;
    repeat match goal with
    | H : _ && _ = true |- _ => apply andb_true_iff in H as [? ?]
    | H : (_ ++ [_]) !! _ = Some _ |- _ =>
        apply lookup_app_Some in H as [H|[? H]];
        [|apply list_lookup_singleton_Some in H as [? <-]]
    | H : <[_:=_]> _ !! _ = Some _ |- _ =>
        apply list_lookup_insert_Some in H as [(<-&<-&?)|[? H]]
    end;
    try (by left);
    try (right; left; eexists; split; [eassumption|]; simpl;
         rewrite ?bool_decide_eq_true_2 by done;
         first [left; repeat split; try done; try (by left); by (right)
               | right; by repeat split]);
    rewrite ?length_insert in *;
    try (right; right; split; [lia|]; simpl; first [done | split; [done|simpl; lia]]).
Qed.

Lemma step_length s l s' :
  step s l = Some s' → length (threads s) ≤ length (threads s').
Proof.
  intros Hs. destruct s as [g ths st sk nw].
  destruct l; simpl in Hs;
    unfold step_executor, step_worker, step_closer, doRecover, returned in Hs;
    simpl in Hs; repeat case_match; simplify_eq; simpl;
    rewrite ?length_app, ?length_insert; lia.
Qed.

Lemma step_indexed s l s' : indexed s → step s l = Some s' → indexed s'.
Proof.
  intros HI Hs i pc job Hi.
  destruct (step_lookup _ _ _ _ _ Hs Hi) as [Ho|[(t&Ho&[Hf|He])|[-> Hb]]].
  - by eapply HI.
  - destruct t as [pc0 job0| |]; simpl in Hf; try done.
    destruct Hf as [-> _]. by eapply HI.
  - by destruct t.
  - by destruct Hb.
Qed.

Lemma run_indexed s tr s' : indexed s → run s tr = Some s' → indexed s'.
Proof.
  revert s. induction tr as [|l tr IH]; intros s HI Hr; simpl in Hr.
  - by simplify_eq.
  - destruct (step s l) as [s1|] eqn:Hs; [|done].
    eapply IH; [|done]. by eapply step_indexed.
Qed.

Lemma reachable_indexed g tr s : run (init g) tr = Some s → indexed s.
Proof. apply run_indexed. by intros i pc job Hi. Qed.

Lemma sum_pos {A} (f : A → nat) l :
  0 < sum_list_with f l → ∃ i x, l !! i = Some x ∧ 0 < f x.
Proof.
  induction l as [|x l IH]; simpl; [lia|]. intros H.
  destruct (decide (0 < f x)) as [Hx|Hx].
  - by exists 0, x.
  - destruct IH as (i&y&?&?); [lia|]. by exists (S i), y.
Qed.

Lemma in_loop_le_token l :
  sum_list_with in_loop l ≤ sum_list_with holds_token l.
Proof. induction l as [|[[]|[]|] l IH]; simpl; lia. Qed.

Lemma in_body_le_loop l :
  sum_list_with in_body l ≤ sum_list_with in_loop l.
Proof. induction l as [|[|[]|] l IH]; simpl; lia. Qed.

(** A step that adds a worker is line 50 of an [Execute] call, which got
    there by sending a token. *)
Lemma spawn_needs_token s l s' :
  step s l = Some s' → total is_worker s < total is_worker s' →
  ∃ i job, l = Next i ∧ threads s !! i = Some (Executor EGo job)
           ∧ holds_token (Executor EGo job) = 1.
Proof.
  intros Hs. destruct s as [g ths st sk nw]. unfold total.
  destruct l; simpl in Hs;
    unfold step_executor, step_worker, step_closer, doRecover, returned in Hs;
    simpl in Hs; repeat case_match; simplify_eq;
    unfold set_thread, spawn, with_pool, with_sink, log_start, advance; simpl;
    try delta; try weigh is_worker; simpl in *; try lia.
  intros _. by eexists _, _.
Qed.

(** C1.  On a pool made with capacity N = [concurrent g], whatever calls
    of Execute and Close are made and however they interleave: at most N
    workers are in their loop, at most N task bodies run, [tokens] never
    holds more than N values, every worker in its loop has its token in
    [tokens] ([tokens_len] counts exactly the holders), and a worker is
    only started by a call that has sent its token. *)
Theorem at_most_capacity_workers opts g tr s :
  NewPool opts = Some g → run (init g) tr = Some s →
  (Z.of_nat (total in_loop s) ≤ concurrent g)%Z
  ∧ (Z.of_nat (total in_body s) ≤ concurrent g)%Z
  ∧ (Z.of_nat (tokens_len (pool s)) ≤ concurrent g)%Z
  ∧ tokens_len (pool s) = total holds_token s
  ∧ (∀ t, in_loop t ≤ holds_token t)
  ∧ (∀ l s', step s l = Some s' → total is_worker s < total is_worker s' →
       ∃ i job, l = Next i ∧ threads s !! i = Some (Executor EGo job)
                ∧ holds_token (Executor EGo job) = 1).
Proof.
  intros Hg Hr. pose proof (reachable_inv _ _ _ _ Hg Hr) as HI.
  destruct (run_const _ _ _ Hr) as (Hc&_). simpl in Hc.
  pose proof (inv_tokens _ HI) as Ht. pose proof (inv_cap _ HI) as Hcap.
  pose proof (in_loop_le_token (threads s)).
  pose proof (in_body_le_loop (threads s)). unfold total in *.
  repeat split; try lia; try done.
  - intros [[]|[]|]; simpl; lia.
  - apply spawn_needs_token.
Qed.

Lemma is_job_spec k job :
  is_job k job = true ↔ origin job = k ∧ fn job ≠ None.
Proof.
  unfold is_job. rewrite andb_true_iff, !bool_decide_eq_true. done.
Qed.

Lemma weight_zero {A} (f : A → nat) l i x :
  sum_list_with f l = 0 → l !! i = Some x → f x = 0.
Proof. intros H0 Hi. pose proof (sum_lookup_le l i x f Hi). lia. Qed.

(** A [Close] call parked in [Wait], or woken from it, has closed both
    channels. *)
Lemma parked_closed s :
  Inv s → 0 < waiters (pool s) + sema (pool s) → tokens_closed (pool s) = true.
Proof.
  intros HI Hw. pose proof (inv_sema _ HI) as Hs.
  pose proof (inv_tokens_closed _ HI) as Ht. unfold total in *.
  assert (sum_list_with at_parked (threads s)
          ≤ sum_list_with closed_tokens (threads s)) as Hle.
  { clear. induction (threads s) as [|[| |[] ?] l IH]; simpl; lia. }
  destruct (tokens_closed (pool s)); [done|]. simpl in Ht. lia.
Qed.

Lemma step_open_no_failure s l s' :
  Inv s → open_no_failure s → step s l = Some s' → open_no_failure s'.
Proof.
  unfold open_no_failure, total. intros HInv HI Hs.
  pose proof (parked_closed _ HInv) as Hpk.
  destruct s as [g ths st sk nw].
  destruct l; simpl in Hs;
    unfold step_executor, step_worker, step_closer, doRecover, returned in Hs;
    simpl in Hs; repeat case_match; simplify_eq;
    unfold set_thread, spawn, with_pool, with_sink, log_start, advance; simpl in *;
    try delta; try weigh failed; simpl in *; intros Hp Ht;
    try (specialize (HI Hp Ht)); try lia; try done;
    try (rewrite Hp in *; rewrite Ht in *; done);
    try (rewrite Hpk in Ht by lia; done);
    destruct (pending_closed g), (tokens_closed g); try done;
    specialize (HI eq_refl eq_refl); lia.
Qed.

Lemma reachable_open_no_failure opts g tr s :
  NewPool opts = Some g → run (init g) tr = Some s → open_no_failure s.
Proof.
  intros Hg.
  assert (∀ s0, Inv s0 → open_no_failure s0 → run s0 tr = Some s →
                open_no_failure s) as H.
  { induction tr as [|l tr IH]; intros s0 HI0 H0 Hr; simpl in Hr.
    - by simplify_eq.
    - destruct (step s0 l) as [s1|] eqn:Hs; [|done].
      eapply IH; [| |done]; [by eapply step_inv|by eapply step_open_no_failure]. }
  apply H; [by eapply init_inv|by intros ??].
Qed.

(** The body log only grows. *)
Lemma step_started s l s' :
  step s l = Some s' → ∃ more, started s' = started s ++ more.
Proof.
  intros Hs. destruct s as [g ths st sk nw].
  destruct l; simpl in Hs;
    unfold step_executor, step_worker, step_closer, doRecover, returned in Hs;
    simpl in Hs; repeat case_match; simplify_eq; simpl;
    first [by eexists [_] | exists []; by rewrite app_nil_r].
Qed.

Lemma run_started s tr s' :
  run s tr = Some s' → ∃ more, started s' = started s ++ more.
Proof.
  revert s. induction tr as [|l tr IH]; intros s Hr; simpl in Hr.
  - simplify_eq. exists []. by rewrite app_nil_r.
  - destruct (step s l) as [s1|] eqn:Hs; [|done].
    destruct (step_started _ _ _ Hs) as [m1 H1].
    destruct (IH _ Hr) as [m2 H2]. exists (m1 ++ m2).
    by rewrite H2, H1, app_assoc.
Qed.

Lemma run_invocations s tr s' k :
  run s tr = Some s' → invocations k s ≤ invocations k s'.
Proof.
  intros [more Hm]%run_started. unfold invocations.
  rewrite Hm, sum_list_with_app. lia.
Qed.

(** The holder of a body runs its next statement: either that is the call
    of line 64, or the body has a holder that is nearer to it. *)
Lemma holder_step s j t k :
  Inv s → threads s !! j = Some t → holds_job k t = 1 →
  0 < call_distance t →
  ∃ s', step s (Next j) = Some s'
    ∧ (invocations k s' = S (invocations k s)
       ∨ ∃ j' t', threads s' !! j' = Some t' ∧ holds_job k t' = 1
                  ∧ 0 < call_distance t' < call_distance t).
Proof.
  intros HI Hj Hh Hd. simpl. rewrite Hj.
  pose proof (weight_zero _ _ _ _ (inv_timer _ HI) Hj) as Hlost.
  pose proof (lookup_lt_Some _ _ _ Hj) as Hlt.
  destruct t as [[] job|[] job tm|]; simpl in *; try lia;
    destruct (is_job k job) eqn:Hjob; try done;
    apply is_job_spec in Hjob as [Ho Hfn].
  - eexists. split; [done|]. right. simpl.
    exists (length (threads s)), (Worker WNewTimer job no_timer).
    rewrite lookup_app_r by (by rewrite length_insert).
    rewrite length_insert, Nat.sub_diag. simpl.
    rewrite (proj2 (is_job_spec k job)) by done. repeat split; lia.
  - eexists. split; [done|]. right. simpl.
    eexists j, _. rewrite list_lookup_insert_eq by done. split; [done|]. simpl.
    rewrite (proj2 (is_job_spec k job)) by done. repeat split; lia.
  - destruct (fn job) as [body|] eqn:Hb; [|done].
    eexists. split; [done|]. left. unfold invocations. simpl.
    rewrite sum_list_with_app. simpl.
    rewrite bool_decide_eq_true_2 by done. simpl. lia.
  - eexists. split; [done|]. right. simpl.
    eexists j, _. rewrite list_lookup_insert_eq by done. split; [done|].
    destruct (active tm); simpl; rewrite (proj2 (is_job_spec k job)) by done;
      repeat split; lia.
  - destruct (chan tm); [|done].
    eexists. split; [done|]. right. simpl.
    eexists j, _. rewrite list_lookup_insert_eq by done. split; [done|]. simpl.
    rewrite (proj2 (is_job_spec k job)) by done. repeat split; lia.
  - eexists. split; [done|]. right. simpl.
    eexists j, _. rewrite list_lookup_insert_eq by done. split; [done|]. simpl.
    rewrite (proj2 (is_job_spec k job)) by done. repeat split; lia.
Qed.

(** So the holder brings the body to line 64 by statements of its own
    (and of the worker it starts), whatever state the rest is in. *)
Lemma holder_delivers n s j t k :
  Inv s → threads s !! j = Some t → holds_job k t = 1 →
  0 < call_distance t ≤ n →
  ∃ tr s', run s tr = Some s' ∧ Forall (λ l, own_statement l = true) tr
    ∧ length tr ≤ n ∧ invocations k s' = S (invocations k s).
Proof.
  revert s j t. induction n as [|n IH]; intros s j t HI Hj Hh Hd; [lia|].
  destruct (holder_step _ _ _ _ HI Hj Hh) as (s1&Hs&[Hinv|(j'&t'&Hj'&Hh'&Hd')]);
    [lia| |].
  - exists [Next j], s1. cbn [run]. rewrite Hs.
    repeat split; [by repeat constructor|simpl; lia|done].
  - assert (Inv s1) as HI1 by by eapply step_inv.
    destruct (IH _ _ _ HI1 Hj' Hh') as (tr&s'&Hr&Hown&Hlen&Hinv); [lia|].
    exists (Next j :: tr), s'. cbn [run]. rewrite Hs.
    repeat split; [done|by constructor|simpl; lia|].
    rewrite Hinv. f_equal.
    pose proof (inv_jobs _ HI k) as J0. pose proof (inv_jobs _ HI1 k) as J1.
    pose proof (inv_owes _ HI k) as O0. pose proof (inv_owes _ HI1 k) as O1.
    pose proof (sum_lookup_le _ _ _ (holds_job k) Hj) as L0.
    pose proof (sum_lookup_le _ _ _ (holds_job k) Hj') as L1.
    unfold total in *. lia.
Qed.


(** C2, as the code has it.  A non-nil task that the pool has taken from
    its Execute call (it went over [pending], or the call is past its
    [wait.Add(1)]: the calls that return the pool) is never dropped and
    never duplicated.  At every moment either exactly one thread holds the
    body for its invocation at line 64 and no invocation happened, or
    nobody holds it and it was invoked exactly once.  While it is held,
    at most four statements of the holder (and of the worker it starts)
    bring it to line 64, and no other goroutine is needed for them.  In
    every later state it was invoked at most once, and remains invoked
    once it was.  No body of any call is invoked twice.  And as long as
    Close has closed neither channel no call has lost its task: every
    call is still at its select, between its token send and its
    [wait.Add(1)], or taken. *)
Theorem taken_task_invoked_once opts g tr s k pc job body :
  NewPool opts = Some g → run (init g) tr = Some s →
  threads s !! k = Some (Executor pc job) → taken pc = true →
  fn job = Some body →
  total (holds_job k) s + invocations k s = 1
  ∧ (∃ tr' s', run s tr' = Some s'
       ∧ Forall (λ l, own_statement l = true) tr' ∧ length tr' ≤ 4
       ∧ invocations k s' = 1 ∧ total (holds_job k) s' = 0)
  ∧ (∀ tr' s', run s tr' = Some s' →
       invocations k s ≤ invocations k s' ≤ 1)
  ∧ (∀ k', invocations k' s ≤ 1)
  ∧ (pending_closed (pool s) = false → tokens_closed (pool s) = false →
       ∀ i pc' job', threads s !! i = Some (Executor pc' job') →
         pc' = ESelect ∨ pc' = EAdd ∨ taken pc' = true).
Proof.
  intros Hg Hr Hk Hacc Hfn.
  pose proof (reachable_inv _ _ _ _ Hg Hr) as HI.
  pose proof (reachable_indexed _ _ _ Hr) as Hix.
  assert (Hjob : is_job k job = true).
  { apply is_job_spec. split; [by eapply Hix|congruence]. }
  assert (Howes : total (owes k) s = 1).
  { pose proof (inv_owes _ HI k).
    pose proof (sum_lookup_le _ _ _ (owes k) Hk) as Hle. unfold total in *.
    destruct pc as [| | |[]|[]| |]; simpl in *; try done; rewrite Hjob in Hle; lia. }
  pose proof (inv_jobs _ HI k) as Hjobs.
  assert (Hlater : ∀ tr' s', run s tr' = Some s' → invocations k s' ≤ 1).
  { intros tr' s' Hr'.
    assert (Inv s') as HI' by by eapply run_inv.
    pose proof (inv_owes _ HI' k). pose proof (inv_jobs _ HI' k). lia. }
  split; [lia|]. split; [|split; [|split]].
  - destruct (decide (total (holds_job k) s = 0)) as [H0|H0].
    { exists [], s. repeat split; simpl; [by constructor|lia|lia|done]. }
    destruct (sum_pos (holds_job k) (threads s)) as (j&t&Hj&Hh);
      [unfold total in *; lia|].
    assert (holds_job k t = 1) as Hh1.
    { unfold holds_job in *. repeat case_match; lia. }
    assert (0 < call_distance t ≤ 4) as Hd.
    { destruct t as [pc' job'|pc' job' tm|]; simpl in *; try lia.
      - assert (is_job k job' = true) as [Ho _]%is_job_spec
          by (destruct pc', (is_job k job'); done).
        rewrite (Hix _ _ _ Hj) in Ho. subst j. rewrite Hk in Hj. simplify_eq.
        destruct pc' as [| | |[]|[]| |]; simpl in *; try done; lia.
      - destruct pc'; simpl in *; lia. }
    destruct (holder_delivers 4 _ _ _ _ HI Hj Hh1 Hd) as (tr'&s'&Hr'&Hown&Hlen&Hinv).
    exists tr', s'. repeat split; try done.
    + specialize (Hlater _ _ Hr'). lia.
    + assert (Inv s') as HI' by by eapply run_inv.
      pose proof (inv_owes _ HI' k). pose proof (inv_jobs _ HI' k).
      specialize (Hlater _ _ Hr'). lia.
  - intros tr' s' Hr'. split; [by eapply run_invocations|by eapply Hlater].
  - intros k'. pose proof (inv_owes _ HI k'). pose proof (inv_jobs _ HI k'). lia.
  - intros Hp Ht i pc' job' Hi.
    pose proof (reachable_open_no_failure _ _ _ _ Hg Hr Hp Ht) as Hf.
    pose proof (weight_zero _ _ _ _ Hf Hi) as Hz.
    destruct pc' as [| | |[]|[]| |]; simpl in *; auto; done.
Qed.


Lemma step_persist s l s' j t :
  step s l = Some s' → threads s !! j = Some t → is_Some (threads s' !! j).
Proof.
  intros Hs Hj. apply lookup_lt_is_Some.
  pose proof (step_length _ _ _ Hs). apply lookup_lt_Some in Hj. lia.
Qed.



(** The four deferred calls of [loop], run in a row from a reachable
    state: none blocks, none panics; the timer is stopped, one token is
    taken out, the counter goes down by one, a [Wait] parked on the counter
    is released when it comes to zero, and [doRecover] deals with the
    panic in flight, if any. *)
Lemma run_defers s j p job tm :
  Inv s → threads s !! j = Some (Worker (WDeferStop p) job tm) →
  ∃ s', run s (replicate 4 (Next j)) = Some s'
    ∧ threads s' = <[j := Worker WExited job (snd (Stop tm))]> (threads s)
    ∧ (if decide (wait (pool s) = 1)
       then waiters (pool s') = 0
            ∧ sema (pool s') = sema (pool s) + waiters (pool s)
       else waiters (pool s') = waiters (pool s)
            ∧ sema (pool s') = sema (pool s))
    ∧ S (tokens_len (pool s')) = tokens_len (pool s)
    ∧ S (wait (pool s')) = wait (pool s)
    ∧ started s' = started s
    ∧ sink s' = fst (doRecover (pool s) p (sink s)).
Proof.
  intros HI Hj.
  pose proof (sum_lookup_le _ _ _ holds_token Hj) as Ht.
  pose proof (sum_lookup_le _ _ _ counted Hj) as Hw.
  pose proof (inv_tokens _ HI) as Hit. pose proof (inv_wait _ HI) as Hiw.
  unfold total in Hit, Hiw. rewrite <-Hit in Ht. rewrite <-Hiw in Hw. clear Hit Hiw.
  pose proof (lookup_lt_Some _ _ _ Hj) as Hlt.
  destruct s as [g ths st sk nw]. simpl in *.
  destruct (tokens_len g) as [|n] eqn:Hn; [lia|].
  destruct (wait g) as [|m] eqn:Hm; [lia|].
  rewrite Hj. simpl. rewrite list_lookup_insert_eq by done. simpl. rewrite Hn.
  simpl. rewrite list_lookup_insert_eq by (by rewrite length_insert). simpl.
  rewrite Hm. destruct m as [|m]; simpl;
    (rewrite list_lookup_insert_eq by (by rewrite !length_insert)); simpl;
    unfold doRecover; simpl;
    destruct p as [r|], (recoverFunc g) as [h|]; simpl;
    (eexists; split; [done|]); simpl;
    rewrite !list_insert_insert_eq; by repeat split.
Qed.


Lemma in_loop_le_counted l :
  sum_list_with in_loop l ≤ sum_list_with counted l.
Proof. induction l as [|[[]|[]|] l IH]; simpl; lia. Qed.

(** A goroutine keeps its function. *)
Lemma step_worker_stays s l s' j t :
  step s l = Some s' → threads s !! j = Some t → is_worker t = 1 →
  ∃ t', threads s' !! j = Some t' ∧ is_worker t' = 1.
Proof.
  intros Hs Hj Hw. destruct (step_persist _ _ _ _ _ Hs Hj) as [t' Hj'].
  exists t'. split; [done|].
  destruct (step_lookup _ _ _ _ _ Hs Hj') as [Ho|[(t0&Ho&[Hf|He])|[-> _]]].
  - by simplify_eq.
  - rewrite Hj in Ho. injection Ho as <-. by destruct t, t'.
  - rewrite Hj in Ho. injection Ho as <-. by destruct t, t'.
  - apply lookup_lt_Some in Hj. lia.
Qed.

Lemma step_past_done s l s' j t :
  step s l = Some s' → threads s !! j = Some t → past_done t = true →
  ∃ t', threads s' !! j = Some t' ∧ past_done t' = true.
Proof.
  intros Hs Hj Hl. destruct (step_persist _ _ _ _ _ Hs Hj) as [t' Hj'].
  exists t'. split; [done|].
  destruct (step_lookup _ _ _ _ _ Hs Hj') as [Ho|[(t0&Ho&[Hf|He])|[-> _]]].
  - by simplify_eq.
  - rewrite Hj in Ho. injection Ho as <-.
    destruct t as [|pc ? ?|], t' as [|pc' ? ?|]; simpl in *; try done.
    destruct Hf as [Hf _].
    by destruct pc as [| | | | | | |?|?|?|? ?|[]| |], pc'.
  - rewrite Hj in Ho. injection Ho as <-.
    destruct t, t'; simpl in *; try done. by destruct He as (->&_).
  - apply lookup_lt_Some in Hj. lia.
Qed.

(** A worker that has run its [wait.Done()] stays so, whatever the other
    goroutines do. *)
Lemma past_done_forever s tr s' j t :
  run s tr = Some s' → threads s !! j = Some t → past_done t = true →
  ∃ t', threads s' !! j = Some t' ∧ past_done t' = true.
Proof.
  revert s t. induction tr as [|l tr IH]; intros s t Hr Hj Hl; simpl in Hr.
  - simplify_eq. by exists t.
  - destruct (step s l) as [s1|] eqn:Hs; [|done].
    destruct (step_past_done _ _ _ _ _ Hs Hj Hl) as (t1&?&?). by eapply IH.
Qed.

Lemma worker_forever s tr s' j t :
  run s tr = Some s' → threads s !! j = Some t → is_worker t = 1 →
  ∃ t', threads s' !! j = Some t' ∧ is_worker t' = 1.
Proof.
  revert s t. induction tr as [|l tr IH]; intros s t Hr Hj Hl; simpl in Hr.
  - simplify_eq. by exists t.
  - destruct (step s l) as [s1|] eqn:Hs; [|done].
    destruct (step_worker_stays _ _ _ _ _ Hs Hj Hl) as (t1&?&?). by eapply IH.
Qed.

(** The step by which a [Close] call returns from line 97 is a step of
    [Wait] that reads the counter as zero. *)
Lemma return_reads_zero s l s' i grace :
  step s l = Some s' →
  threads s !! i ≠ Some (Closer (CDone true) grace) →
  threads s' !! i = Some (Closer (CDone true) grace) →
  l = Next i ∧ wait (pool s) = 0 ∧ wait (pool s') = 0
  ∧ (threads s !! i = Some (Closer CWait grace)
     ∨ threads s !! i = Some (Closer CWoken grace)).
Proof.
  intros Hs Hn Hi. destruct s as [g ths st sk nw].
  destruct l; simpl in Hs;
    unfold step_executor, step_worker, step_closer, doRecover, returned in Hs;
    simpl in Hs; repeat case_match; simplify_eq; simpl in *;
    repeat match goal with
    | H : (_ ++ [_]) !! _ = Some _ |- _ =>
        apply lookup_app_Some in H as [H|[? H]];
        [|apply list_lookup_singleton_Some in H as [? ?]]
    | H : <[_:=_]> _ !! _ = Some _ |- _ =>
        apply list_lookup_insert_Some in H as [(?&?&?)|[? H]]
    end; simplify_eq; try done; auto.
Qed.

(** A schedule that makes a property true has a step that does. *)
Lemma run_first_step (P : State → Prop) `{!∀ s, Decision (P s)} s0 tr s :
  run s0 tr = Some s → ¬ P s0 → P s →
  ∃ tr1 l tr2 s1 s2, tr = tr1 ++ l :: tr2 ∧ run s0 tr1 = Some s1
    ∧ step s1 l = Some s2 ∧ run s2 tr2 = Some s ∧ ¬ P s1 ∧ P s2.
Proof.
  revert s0. induction tr as [|l tr IH]; intros s0 Hr Hn Hp; simpl in Hr.
  - by simplify_eq.
  - destruct (step s0 l) as [s1|] eqn:Hs; [|done].
    destruct (decide (P s1)) as [H1|H1].
    + by exists [], l, tr, s0, s1.
    + destruct (IH _ Hr H1 Hp) as (tr1&l'&tr2&sa&sb&->&Hra&Hsb&Hrb&?&?).
      exists (l :: tr1), l', tr2, sa, sb. simpl. rewrite Hs. done.
Qed.

(** C4, as the code has it.  A Close call returns from line 97, that is
    after running the shutdown sequence, only by a step of [Wait] that
    reads the WaitGroup counter as zero.  At that moment no worker is in
    its loop and no task body is running.  So every worker that was in its
    loop at some moment before that return (and so every task that was
    running when the call was made) has by then left its loop and run its
    deferred [wait.Done()]; its body has completed, and it stays so. *)
Theorem shutdown_close_waits_for_workers opts g tr s0 tr' s i grace :
  NewPool opts = Some g → run (init g) tr = Some s0 →
  threads s0 !! i ≠ Some (Closer (CDone true) grace) →
  run s0 tr' = Some s →
  threads s !! i = Some (Closer (CDone true) grace) →
  (∃ tr1 tr2 s1 s2, tr' = tr1 ++ Next i :: tr2 ∧ run s0 tr1 = Some s1
     ∧ step s1 (Next i) = Some s2 ∧ run s2 tr2 = Some s
     ∧ (threads s1 !! i = Some (Closer CWait grace)
        ∨ threads s1 !! i = Some (Closer CWoken grace))
     ∧ threads s2 !! i = Some (Closer (CDone true) grace)
     ∧ wait (pool s1) = 0
     ∧ total in_loop s2 = 0 ∧ total in_body s2 = 0 ∧ total counted s2 = 0)
  ∧ (∀ j t, threads s0 !! j = Some t → in_loop t = 1 →
       ∃ t', threads s !! j = Some t' ∧ past_done t' = true
             ∧ left_loop t' = true ∧ in_loop t' = 0 ∧ in_body t' = 0).
Proof.
  intros Hg Hr Hn Hr' Hi.
  destruct (run_first_step
              (λ x, threads x !! i = Some (Closer (CDone true) grace))
              _ _ _ Hr' Hn Hi) as (tr1&l&tr2&s1&s2&->&Hr1&Hs&Hr2&Hn1&Hi2).
  destruct (return_reads_zero _ _ _ _ _ Hs Hn1 Hi2) as (->&Hw1&Hw2&Hpc).
  assert (Inv s1) as HI1.
  { eapply run_inv; [|exact Hr1]. by eapply reachable_inv. }
  assert (Inv s2) as HI2 by by eapply step_inv.
  pose proof (inv_wait _ HI2) as Hc. rewrite Hw2 in Hc.
  pose proof (in_loop_le_counted (threads s2)).
  pose proof (in_body_le_loop (threads s2)). unfold total in *.
  split.
  - exists tr1, tr2, s1, s2. repeat split; try done; lia.
  - intros j t Hj Hl.
    assert (is_worker t = 1) as Hwk by (by destruct t as [|[]|]).
    destruct (worker_forever _ _ _ _ _ Hr1 Hj Hwk) as (t1&Hj1&Hwk1).
    destruct (step_worker_stays _ _ _ _ _ Hs Hj1 Hwk1) as (t2&Hj2&Hwk2).
    assert (counted t2 = 0) as Hc2 by (eapply weight_zero; [|exact Hj2]; lia).
    assert (past_done t2 = true) as Hp2 by (by destruct t2 as [|[]|]).
    destruct (past_done_forever _ _ _ _ _ Hr2 Hj2 Hp2) as (t'&Hj'&Hp').
    exists t'. split; [done|]. by destruct t' as [|[]|].
Qed.

(** C5, as the code has it.  A Close(false) call that runs the shutdown
    sequence has cancelled the shared context before it waits, while it
    waits and when it returns, so every body sees [ctx] done from then on.  No statement
    of a Close(true) call changes the cancellation state.  And if the pool
    has cancelled its context, a Close(false) call ran the shutdown
    sequence. *)
Theorem ungraceful_shutdown_cancels opts g tr s :
  NewPool opts = Some g → run (init g) tr = Some s →
  (∀ i pc, threads s !! i = Some (Closer pc false) →
     pc = CWait ∨ pc = CParked ∨ pc = CWoken ∨ pc = CDone true →
     cancelled (pool s) = true ∧ ctx_done (pool s) = true)
  ∧ (∀ i pc s', threads s !! i = Some (Closer pc true) →
       step s (Next i) = Some s' → cancelled (pool s') = cancelled (pool s))
  ∧ (cancelled (pool s) = true →
       ∃ i pc, threads s !! i = Some (Closer pc false)
               ∧ performs_shutdown (Closer pc false) = 1
               ∧ called_cancel (Closer pc false) = 1).
Proof.
  intros Hg Hr. pose proof (reachable_inv _ _ _ _ Hg Hr) as HI.
  pose proof (inv_cancel _ HI) as Hc. unfold total in Hc.
  split; [|split].
  - intros i pc Hi Hpc.
    pose proof (sum_lookup_le _ _ _ called_cancel Hi) as Hle.
    assert (cancelled (pool s) = true) as Hx.
    { destruct (cancelled (pool s)); [done|]. rewrite Hc in Hle.
      by destruct Hpc as [-> |[-> |[-> | ->]]]; simpl in Hle; lia. }
    split; [done|]. unfold ctx_done. rewrite Hx. apply orb_true_r.
  - intros i pc s' Hi Hs. simpl in Hs. rewrite Hi in Hs.
    unfold step_closer in Hs. simpl in Hs.
    by repeat case_match; simplify_eq.
  - intros Hx. rewrite Hx in Hc. simpl in Hc.
    destruct (sum_pos called_cancel (threads s)) as (i&t&Hi&Ht); [lia|].
    destruct t as [| |pc [|]]; simpl in Ht; try lia;
      [destruct pc; simpl in Ht; repeat case_match; lia|].
    exists i, pc. split; [done|].
    destruct pc; simpl in *; repeat case_match; try lia; done.
Qed.

(** The flag [closed] is never reset. *)
Lemma step_closed s l s' :
  step s l = Some s' → closed (pool s) = true → closed (pool s') = true.
Proof.
  intros Hs. destruct l; simpl in Hs;
    unfold step_executor, step_worker, step_closer, doRecover, returned in Hs;
    simpl in Hs; repeat case_match; by simplify_eq.
Qed.

Lemma performer_le_one s : Inv s →
  total performs_shutdown s ≤ 1 ∧ total closed_pending s ≤ 1
  ∧ total closed_tokens s ≤ 1 ∧ total called_cancel s ≤ 1.
Proof.
  intros HI. pose proof (inv_closed _ HI) as Hc.
  pose proof (b2n_le (closed (pool s))).
  pose proof (pending_le_shutdown (threads s)).
  pose proof (tokens_le_shutdown (threads s)).
  pose proof (cancel_le_shutdown (threads s)).
  unfold total in *. lia.
Qed.

(** C6.  Close is idempotent.  At any moment the number of Close calls
    that got past the guard equals the flag (none while it is false,
    exactly one once it is true), so [close(g.pending)], [close(g.tokens)]
    and [g.cancel()] are each executed at most once.  No Close call ever
    panics on the mutex or on a channel: a call that has panicked is the
    one that ran the shutdown sequence, and it panicked in
    [g.wait.Wait()].  The flag is never reset.  A call that reads the flag
    as true, under the mutex, unlocks and returns in its next two
    statements: it touches neither the channels nor the context nor the
    WaitGroup, does not wait and does not panic.  Every call that has
    read the flag as true is in these two statements or has returned.
    Whoever holds the mutex is never blocked, so the wait for it is
    short. *)
Theorem close_is_idempotent opts g tr s :
  NewPool opts = Some g → run (init g) tr = Some s →
  total performs_shutdown s = b2n (closed (pool s))
  ∧ total closed_pending s ≤ 1 ∧ total closed_tokens s ≤ 1
  ∧ total called_cancel s ≤ 1
  ∧ (∀ i r grace, threads s !! i = Some (Closer (CCrashed r) grace) →
       r = WaitGroupReused
       ∧ performs_shutdown (Closer (CCrashed r) grace) = 1)
  ∧ (∀ l s', step s l = Some s' → closed (pool s) = true →
       closed (pool s') = true)
  ∧ (∀ i grace, threads s !! i = Some (Closer CCheck grace) →
       closed (pool s) = true →
       locked (pool s) = true
       ∧ ∃ s', run s [Next i; Next i] = Some s'
           ∧ threads s' = <[i := Closer (CDone false) grace]> (threads s)
           ∧ pool s' = set_locked false (pool s)
           ∧ started s' = started s ∧ sink s' = sink s)
  ∧ (∀ i grace, threads s !! i = Some (Closer CUnlockReturn grace) →
       ∃ s', step s (Next i) = Some s'
           ∧ threads s' = <[i := Closer (CDone false) grace]> (threads s)
           ∧ pool s' = set_locked false (pool s)
           ∧ started s' = started s ∧ sink s' = sink s)
  ∧ (∀ i pc grace, threads s !! i = Some (Closer pc grace) →
       in_critical (Closer pc grace) = 1 → is_Some (step s (Next i))).
Proof.
  intros Hg Hr. pose proof (reachable_inv _ _ _ _ Hg Hr) as HI.
  destruct (performer_le_one s HI) as (?&?&?&?).
  split; [apply HI|]. do 3 (split; [done|]). split; [|split; [apply step_closed|]].
  { intros i r grace Hi.
    pose proof (weight_zero _ _ _ _ (inv_crash _ HI) Hi) as Hz.
    by destruct r. }
  split; [|split].
  - intros i grace Hi Hc.
    pose proof (sum_lookup_le _ _ _ in_critical Hi) as Hle.
    pose proof (inv_lock _ HI) as Hl. unfold total in Hl. rewrite Hl in Hle.
    pose proof (lookup_lt_Some _ _ _ Hi) as Hlt.
    destruct (locked (pool s)) eqn:Hlk; [|simpl in Hle; lia].
    split; [done|]. destruct s as [p ths st sk nw]. simpl in *.
    rewrite Hi. simpl. rewrite Hc. simpl.
    rewrite list_lookup_insert_eq by done. simpl. rewrite Hlk. simpl.
    eexists. split; [done|]. simpl. by rewrite list_insert_insert_eq.
  - intros i grace Hi.
    pose proof (sum_lookup_le _ _ _ in_critical Hi) as Hle.
    pose proof (inv_lock _ HI) as Hl. unfold total in Hl. rewrite Hl in Hle.
    destruct (locked (pool s)) eqn:Hlk; [|simpl in Hle; lia].
    destruct s as [p ths st sk nw]. simpl in *.
    rewrite Hi. simpl. rewrite Hlk. by eexists.
  - intros i pc grace Hi Hcs. simpl. rewrite Hi.
    destruct pc; simpl in *; try done; try (by eexists).
    + destruct (locked (pool s)); by eexists.
    + destruct (locked (pool s)); by eexists.
Qed.
Lemma timer_due_mono b b' t : (b ≤ b')%Z → timer_due b t → timer_due b' t.
Proof. intros Hb. destruct t; simpl; try done. intros H Ha. specialize (H Ha). lia. Qed.

Lemma step_timers_due s l s' :
  timers_due s → step s l = Some s' → timers_due s'.
Proof.
  unfold timers_due. intros HT Hs.
  destruct (step_const _ _ _ Hs) as (_&_&_&Hid).
  destruct s as [g ths st sk nw]. simpl in *.
  destruct l; simpl in Hs;
    unfold step_executor, step_worker, step_closer, doRecover, returned in Hs;
    simpl in Hs; repeat case_match; simplify_eq; simpl in *;
    repeat match goal with
           | Hi : ths !! _ = Some _ |- _ =>
               pose proof (Forall_lookup_1 _ _ _ _ HT Hi); clear Hi
           end;
    repeat first [apply Forall_app; split | apply Forall_insert
                 | apply Forall_cons; split | apply Forall_nil];
    try done; simpl in *; try (intros; lia); try tauto.
  eapply Forall_impl; [exact HT|]. intros t. apply timer_due_mono.
  apply Z.leb_le in H. lia.
Qed.

Lemma reachable_timers_due g tr s : run (init g) tr = Some s → timers_due s.
Proof.
  assert (∀ s0, timers_due s0 → run s0 tr = Some s → timers_due s) as H.
  { induction tr as [|l tr IH]; intros s0 H0 Hr; simpl in Hr.
    - by simplify_eq.
    - destruct (step s0 l) as [s1|] eqn:Hs; [|done].
      eapply IH; [|done]. by eapply step_timers_due. }
  intros Hr. eapply H; [|exact Hr]. by constructor.
Qed.

(** Only [Tick] moves the clock. *)
Lemma step_now s l s' :
  step s l = Some s' →
  now s' = match l with Tick dt => (now s + dt)%Z | _ => now s end.
Proof.
  intros Hs. destruct s as [g ths st sk nw].
  destruct l; simpl in Hs;
    unfold step_executor, step_worker, step_closer, doRecover, returned in Hs;
    simpl in Hs; repeat case_match; simplify_eq; reflexivity.
Qed.

Lemma run_now_next s j n s' :
  run s (replicate n (Next j)) = Some s' → now s' = now s.
Proof.
  revert s. induction n as [|n IH]; intros s Hr; cbn [replicate run] in Hr.
  - by simplify_eq.
  - destruct (step s (Next j)) as [s1|] eqn:Hs; [|done].
    rewrite (IH _ Hr). by rewrite (step_now _ _ _ Hs).
Qed.

(** The timer case of the select: the worker leaves the loop and its
    deferred calls run. *)
Lemma run_timer_case s j job0 tm :
  Inv s → threads s !! j = Some (Worker WSelect job0 tm) → chan tm = true →
  ∃ s', run s (RecvTimer j :: replicate 4 (Next j)) = Some s'
    ∧ threads s' !! j = Some (Worker WExited job0 (snd (Stop (drain tm))))
    ∧ S (tokens_len (pool s')) = tokens_len (pool s)
    ∧ S (wait (pool s')) = wait (pool s)
    ∧ started s' = started s ∧ sink s' = sink s ∧ now s' = now s.
Proof.
  intros HI Hj Hch. pose proof (lookup_lt_Some _ _ _ Hj) as Hlt.
  assert (Hs1 : step s (RecvTimer j)
                = Some (set_thread j (Worker (WDeferStop None) job0 (drain tm)) s)).
  { simpl. by rewrite Hj, Hch. }
  assert (HI1 : Inv (set_thread j (Worker (WDeferStop None) job0 (drain tm)) s))
    by by eapply step_inv.
  destruct (run_defers _ j None job0 (drain tm) HI1)
    as (s'&Hr'&Hth&Hp&Ht&Hw&Hst&Hsk);
    [simpl; by rewrite list_lookup_insert_eq|].
  exists s'. cbn [run]. rewrite Hs1. split; [done|].
  rewrite Hth. simpl. rewrite list_lookup_insert_eq by (by rewrite length_insert).
  repeat split; try done. by rewrite (run_now_next _ _ _ _ Hr').
Qed.

(** C7.  The clock is part of the state and a timer is set for an
    instant: it can expire from that instant on, not before.  A worker at
    its select has a timer that has already fired, or that runs and is set
    for an instant at most [idleTimeout] from now; the select can take
    the timer case only once the timer has fired.  So when no task comes
    for [idleTimeout] (or longer), the timer fires, the worker takes the
    timer case, leaves the loop and its deferred calls run: it ends
    exited, one token fewer in [tokens], the WaitGroup counter one lower,
    no panic handler called.  When instead a body arrives over [pending],
    the worker stops the timer, takes the value out of [timer.C] if the
    timer had already expired, resets the timer, and is back at line 64
    with the new body and a running timer with an empty channel, set for
    [idleTimeout] from now. *)
Theorem idle_timeout_exits_handoff_resets opts g tr s j job0 tm :
  NewPool opts = Some g → run (init g) tr = Some s →
  threads s !! j = Some (Worker WSelect job0 tm) →
  (chan tm = true
   ∨ (active tm = true ∧ (when tm ≤ now s + idleTimeout g)%Z))
  ∧ (∀ s', step s (TimerExpires j) = Some s' →
       active tm = true ∧ (when tm ≤ now s)%Z
       ∧ threads s' !! j = Some (Worker WSelect job0 (expire tm)))
  ∧ (is_Some (step s (RecvTimer j)) ↔ chan tm = true)
  ∧ (∀ dt, (0 ≤ dt)%Z → (idleTimeout g ≤ dt)%Z →
       ∃ s', run s (timeout_schedule j tm dt) = Some s'
         ∧ threads s' !! j = Some (Worker WExited job0 (snd (Stop (drain tm))))
         ∧ S (tokens_len (pool s')) = tokens_len (pool s)
         ∧ S (wait (pool s')) = wait (pool s)
         ∧ started s' = started s ∧ sink s' = sink s
         ∧ now s' = (now s + dt)%Z)
  ∧ (chan tm = true →
       ∃ s', run s (RecvTimer j :: replicate 4 (Next j)) = Some s'
         ∧ threads s' !! j = Some (Worker WExited job0 (snd (Stop (drain tm))))
         ∧ S (tokens_len (pool s')) = tokens_len (pool s)
         ∧ S (wait (pool s')) = wait (pool s)
         ∧ started s' = started s ∧ sink s' = sink s)
  ∧ (∀ i job body, threads s !! i = Some (Executor ESelect job) →
       fn job = Some body → pending_closed (pool s) = false →
       ∃ s', run s (handoff_schedule i j tm) = Some s'
         ∧ threads s' !! j
           = Some (Worker WCall job (NewTimer (idleTimeout g) (now s)))
         ∧ threads s' !! i = Some (Executor (EDefer None) job)
         ∧ pool s' = pool s ∧ started s' = started s ∧ sink s' = sink s
         ∧ now s' = now s).
Proof.
  intros Hg Hr Hj. pose proof (reachable_inv _ _ _ _ Hg Hr) as HI.
  pose proof (reachable_timers_due _ _ _ Hr) as HT.
  destruct (run_const _ _ _ Hr) as (_&_&_&Hid). simpl in Hid.
  pose proof (lookup_lt_Some _ _ _ Hj) as Hlt.
  pose proof (weight_zero _ _ _ _ (inv_timer _ HI) Hj) as Hlost.
  pose proof (weight_zero _ _ _ _ (inv_stale _ HI) Hj) as Hstale.
  pose proof (Forall_lookup_1 _ _ _ _ HT Hj) as Hdue. simpl in Hdue, Hlost, Hstale.
  rewrite Hid in Hdue.
  split; [|split; [|split; [|split; [|split]]]].
  - destruct (chan tm); [by left|right].
    destruct (active tm); [|done]. split; [done|by apply Hdue].
  - intros s' Hs. simpl in Hs. rewrite Hj in Hs.
    destruct (active tm) eqn:Ha; [|done].
    destruct (when tm <=? now s)%Z eqn:Hw; [|done]. simpl in Hs. simplify_eq.
    apply Z.leb_le in Hw. repeat split; [done|]. simpl.
    by rewrite list_lookup_insert_eq.
  - simpl. rewrite Hj. destruct (chan tm); split; try done; by eexists.
  - intros dt Hdt Hidle. unfold timeout_schedule.
    change (Tick dt :: ?l) with ([Tick dt] ++ l). rewrite run_app.
    assert (Hs0 : run s [Tick dt] = Some (advance dt s)).
    { simpl. by rewrite (proj2 (Z.leb_le 0 dt)). }
    rewrite Hs0.
    assert (HI0 : Inv (advance dt s)) by (eapply run_inv; [exact HI|exact Hs0]).
    destruct (active tm) eqn:Ha.
    + specialize (Hdue eq_refl).
      assert (Hs1 : step (advance dt s) (TimerExpires j)
                    = Some (set_thread j (Worker WSelect job0 (expire tm))
                              (advance dt s))).
      { simpl. rewrite Hj, Ha. simpl.
        by rewrite (proj2 (Z.leb_le (when tm) (now s + dt))) by lia. }
      assert (HI1 : Inv (set_thread j (Worker WSelect job0 (expire tm))
                           (advance dt s))) by by eapply step_inv.
      destruct (run_timer_case _ j job0 (expire tm) HI1)
        as (s'&Hr'&Hth&Ht&Hw&Hst&Hsk&Hnow);
        [simpl; by rewrite list_lookup_insert_eq|done|].
      exists s'. simpl app. cbn [run]. rewrite Hs1.
      split; [done|]. split; [by rewrite Hth|]. by repeat split.
    + assert (chan tm = true) as Hch by (by destruct (chan tm)).
      destruct (run_timer_case _ j job0 tm HI0)
        as (s'&Hr'&Hth&Ht&Hw&Hst&Hsk&Hnow); [done|done|].
      exists s'. simpl app. split; [done|]. by repeat split.
  - intros Hch.
    destruct (run_timer_case _ j job0 tm HI Hj Hch) as (s'&?&?&?&?&?&?&?).
    by exists s'.
  - intros i job body Hi Hfn Hpc.
    pose proof (lookup_lt_Some _ _ _ Hi) as Hlti.
    assert (i ≠ j) by (intros ->; congruence).
    destruct s as [p ths st sk nw]. destruct tm as [a c w]. simpl in *.
    unfold handoff_schedule. simpl. rewrite Hi, Hj, Hpc, Hfn. simpl.
    rewrite list_lookup_insert_eq by (by rewrite length_insert). simpl.
    destruct a, c; simpl in *; try done.
    + rewrite list_lookup_insert_eq by (by rewrite !length_insert). simpl.
      eexists. split; [done|]. simpl.
      rewrite list_lookup_insert_eq by (by rewrite !length_insert).
      rewrite !list_lookup_insert_ne by done.
      rewrite list_lookup_insert_eq by done. by rewrite Hid.
    + rewrite list_lookup_insert_eq by (by rewrite !length_insert). simpl.
      rewrite list_lookup_insert_eq by (by rewrite !length_insert). simpl.
      eexists. split; [done|]. simpl.
      rewrite list_lookup_insert_eq by (by rewrite !length_insert).
      rewrite !list_lookup_insert_ne by done.
      rewrite list_lookup_insert_eq by done. by rewrite Hid.
Qed.

(** C8.  No call of Execute ever lets a panic out to its caller.  When the
    select of a call picks a send on a closed channel, the deferred
    [doRecover] recovers the panic, hands its value to the panic handler
    if there is one and does nothing otherwise, and the call returns (the
    zero value, nil).  Once both channels are closed, as after Close, that
    is the only way the select can go. *)
Theorem execute_recovers_its_panics opts g tr s :
  NewPool opts = Some g → run (init g) tr = Some s →
  (∀ i r job, threads s !! i ≠ Some (Executor (ECrashed r) job))
  ∧ (∀ i job, threads s !! i = Some (Executor ESelect job) →
       pending_closed (pool s) || tokens_closed (pool s) = true →
       ∃ s', run s [SendPanic i; Next i] = Some s'
         ∧ threads s' = <[i := Executor (EDone false) job]> (threads s)
         ∧ sink s' = match recoverFunc g with
                     | Some h => h SendOnClosed (sink s)
                     | None => sink s
                     end
         ∧ pool s' = pool s ∧ started s' = started s)
  ∧ (∀ i j job, threads s !! i = Some (Executor ESelect job) →
       pending_closed (pool s) = true → tokens_closed (pool s) = true →
       step s (SendToken i) = None ∧ step s (SendPending i j) = None
       ∧ is_Some (step s (SendPanic i))).
Proof.
  intros Hg Hr. pose proof (reachable_inv _ _ _ _ Hg Hr) as HI.
  destruct (run_const _ _ _ Hr) as (_&Hrf&_). simpl in Hrf.
  split; [|split].
  - intros i r job Hi.
    pose proof (weight_zero _ _ _ _ (inv_crash _ HI) Hi). done.
  - intros i job Hi Hc. pose proof (lookup_lt_Some _ _ _ Hi) as Hlt.
    destruct s as [p ths st sk]. simpl in *. rewrite Hi, Hc. simpl.
    rewrite list_lookup_insert_eq by done. simpl. rewrite <-Hrf.
    destruct (recoverFunc p); simpl; (eexists; split; [done|]); simpl;
      by rewrite list_insert_insert_eq.
  - intros i j job Hi Hp Ht. simpl. rewrite Hi, Hp, Ht. simpl.
    repeat split; [by repeat case_match|by eexists].
Qed.


(** C10.  A nil func is never invoked.  The body log never has an entry
    for a call that was given nil.  When nil goes over [pending] to a
    worker at its select, the worker returns at lines 70-72: its deferred
    calls run, it ends exited, its token is taken out of [tokens], nothing
    is invoked and the panic handler is not called. *)
Theorem nil_task_never_runs opts g tr s :
  NewPool opts = Some g → run (init g) tr = Some s →
  (∀ k pc job, threads s !! k = Some (Executor pc job) → fn job = None →
     invocations k s = 0)
  ∧ (∀ i j job job0 tm, threads s !! i = Some (Executor ESelect job) →
       fn job = None → threads s !! j = Some (Worker WSelect job0 tm) →
       pending_closed (pool s) = false →
       ∃ s', run s (SendPending i j :: replicate 4 (Next j)) = Some s'
         ∧ threads s' !! j = Some (Worker WExited job (snd (Stop tm)))
         ∧ threads s' !! i = Some (Executor (EDefer None) job)
         ∧ S (tokens_len (pool s')) = tokens_len (pool s)
         ∧ S (wait (pool s')) = wait (pool s)
         ∧ started s' = started s ∧ sink s' = sink s).
Proof.
  intros Hg Hr. pose proof (reachable_inv _ _ _ _ Hg Hr) as HI.
  pose proof (reachable_indexed _ _ _ Hr) as Hix. split.
  - intros k pc job Hk Hfn. pose proof (inv_jobs _ HI k) as Hjobs.
    assert (total (owes k) s = 0); [|lia].
    apply sum_zero, Forall_lookup. intros i t Hi.
    destruct t as [pc' job'| |]; simpl; try done.
    destruct (is_job k job') eqn:Hj'; [|by destruct pc' as [| | |[]|[]| |]].
    apply is_job_spec in Hj' as [Ho Hn]. rewrite (Hix _ _ _ Hi) in Ho. subst i.
    rewrite Hk in Hi. by simplify_eq.
  - intros i j job job0 tm Hi Hfn Hj Hpc.
    pose proof (lookup_lt_Some _ _ _ Hj) as Hlt.
    pose proof (lookup_lt_Some _ _ _ Hi) as Hlti.
    assert (i ≠ j) by (intros ->; congruence).
    set (s1 := set_thread j (Worker (WDeferStop None) job tm)
                 (set_thread i (Executor (EDefer None) job) s)).
    assert (Hs1 : step s (SendPending i j) = Some s1).
    { simpl. by rewrite Hi, Hj, Hpc, Hfn. }
    assert (HI1 : Inv s1) by by eapply step_inv.
    destruct (run_defers _ j None job tm HI1)
      as (s'&Hr'&Hth&Hp&Ht&Hw&Hst&Hsk);
      [simpl; by rewrite list_lookup_insert_eq by (by rewrite length_insert)|].
    exists s'. cbn [run]. rewrite Hs1. split; [done|].
    rewrite Hth. simpl.
    rewrite list_lookup_insert_eq by (by rewrite !length_insert).
    rewrite !list_lookup_insert_ne by done.
    rewrite list_lookup_insert_eq by done. by repeat split.
Qed.

(** * The theorems at the sample schedules *)

Lemma at_most_capacity_workers_witness :
  NewPool opts1 = Some pool1
  ∧ run (init pool1) running_schedule = Some (after running_schedule)
  ∧ (Z.of_nat (total in_body (after running_schedule)) ≤ concurrent pool1)%Z
  ∧ total in_body (after running_schedule) = 1.
Proof.
  do 2 (split; [vm_compute; reflexivity|]). split; [|vm_compute; reflexivity].
  exact (proj1 (proj2 (at_most_capacity_workers opts1 pool1 running_schedule
                         (after running_schedule) ltac:(vm_compute; reflexivity) ltac:(vm_compute; reflexivity)))).
Defined.

(** Against C2 as stated: with capacity 1 and worker 1 inside a body,
    [Execute(ok)] is called (thread 2) before any [Close]; the call blocks
    at its select, as no token is free and no worker is waiting.  Then
    [Close(true)] is called (thread 3) and closes the channels: the select
    of thread 2 panics, [doRecover] recovers it and the call returns nil.
    In the end every goroutine has ended, [Close] has returned, and the
    body of call 2 was never invoked. *)
Lemma blocked_call_dropped_by_close :
  run (init pool1) blocked_schedule = Some (after blocked_schedule)
  ∧ threads (after blocked_schedule) !! 2
    = Some (Executor ESelect {| origin := 2; fn := Some ok |})
  ∧ total is_worker (after blocked_schedule) = 1
  ∧ closed (pool (after blocked_schedule)) = false
  ∧ step (after blocked_schedule) (SendToken 2) = None
  ∧ step (after blocked_schedule) (SendPending 2 1) = None
  ∧ step (after blocked_schedule) (SendPanic 2) = None
  ∧ run (init pool1) dropped_blocked_schedule
    = Some (after dropped_blocked_schedule)
  ∧ threads (after dropped_blocked_schedule)
    = [Executor (EDone true) (job0 ok);
       Worker WExited (job0 ok) (snd (Stop timer0));
       Executor (EDone false) {| origin := 2; fn := Some ok |};
       Closer (CDone true) true]
  ∧ started (after dropped_blocked_schedule) = [0]
  ∧ invocations 2 (after dropped_blocked_schedule) = 0
  ∧ sink (after dropped_blocked_schedule) = [SendOnClosed].
Proof. repeat (split; [vm_compute; reflexivity|]). vm_compute; reflexivity. Qed.

Lemma taken_task_invoked_once_witness :
  NewPool opts1 = Some pool1
  ∧ run (init pool1) [CallExecute (Some ok); SendToken 0; Next 0]
    = Some (after [CallExecute (Some ok); SendToken 0; Next 0])
  ∧ threads (after [CallExecute (Some ok); SendToken 0; Next 0]) !! 0
    = Some (Executor EGo (job0 ok))
  ∧ taken EGo = true
  ∧ fn (job0 ok) = Some ok
  ∧ invocations 0 (after [CallExecute (Some ok); SendToken 0; Next 0]) = 0
  ∧ ∃ tr' s', run (after [CallExecute (Some ok); SendToken 0; Next 0]) tr'
              = Some s'
      ∧ length tr' ≤ 4 ∧ invocations 0 s' = 1.
Proof.
  do 5 (split; [vm_compute; reflexivity|]). split; [vm_compute; reflexivity|].
  destruct (proj1 (proj2 (taken_task_invoked_once opts1 pool1
                     [CallExecute (Some ok); SendToken 0; Next 0]
                     (after [CallExecute (Some ok); SendToken 0; Next 0])
                     0 EGo (job0 ok) ok
                     ltac:(vm_compute; reflexivity) ltac:(vm_compute; reflexivity)
                     ltac:(vm_compute; reflexivity) ltac:(vm_compute; reflexivity)
                     ltac:(vm_compute; reflexivity))))
    as (tr'&s'&Hr&_&Hl&Hi&_).
  exists tr', s'. repeat split; assumption.
Defined.



(** Against C4 as stated.  First: worker 1 is inside a body and a first
    [Close(true)] waits for it; a second [Close(true)], called while the
    body runs, has returned and the body is still running.  Second: the
    call that ran the shutdown sequence has returned while worker 1, whose
    body panicked, has run its [wait.Done()] but not yet its last deferred
    call, [doRecover]: the panic handler is called after Close has
    returned. *)
Lemma close_returns_before_workers_end :
  (run (init pool1) waiting_schedule = Some (after waiting_schedule)
   ∧ threads (after waiting_schedule) !! 1 = Some (Worker WBody (job0 ok) timer0)
   ∧ run (after waiting_schedule) second_close
     = Some (after (waiting_schedule ++ second_close))
   ∧ threads (after (waiting_schedule ++ second_close)) !! 3
     = Some (Closer (CDone false) true)
   ∧ threads (after (waiting_schedule ++ second_close)) !! 1
     = Some (Worker WBody (job0 ok) timer0)
   ∧ total in_body (after (waiting_schedule ++ second_close)) = 1)
  ∧ (run (init pool1) early_return_schedule = Some (after early_return_schedule)
     ∧ threads (after early_return_schedule) !! 2 = Some (Closer (CDone true) true)
     ∧ threads (after early_return_schedule) !! 1
       = Some (Worker (WDeferRecover (Some (UserPanic 7))) (job0 boom)
                 (snd (Stop timer0)))
     ∧ sink (after early_return_schedule) = []
     ∧ run (after early_return_schedule) [Next 1]
       = Some (after (early_return_schedule ++ [Next 1]))
     ∧ sink (after (early_return_schedule ++ [Next 1])) = [UserPanic 7]).
Proof.
  split; (repeat (split; [vm_compute; reflexivity|])); vm_compute; reflexivity.
Qed.

Lemma shutdown_close_waits_for_workers_witness :
  NewPool opts1 = Some pool1
  ∧ run (init pool1) waiting_schedule = Some (after waiting_schedule)
  ∧ threads (after waiting_schedule) !! 2 = Some (Closer CWait true)
  ∧ threads (after waiting_schedule) !! 1 = Some (Worker WBody (job0 ok) timer0)
  ∧ run (after waiting_schedule) finish_schedule
    = Some (after (waiting_schedule ++ finish_schedule))
  ∧ threads (after (waiting_schedule ++ finish_schedule)) !! 2
    = Some (Closer (CDone true) true)
  ∧ ∃ t', threads (after (waiting_schedule ++ finish_schedule)) !! 1 = Some t'
          ∧ past_done t' = true ∧ in_body t' = 0.
Proof.
  do 6 (split; [vm_compute; reflexivity|]).
  destruct (proj2 (shutdown_close_waits_for_workers opts1 pool1 waiting_schedule
                     (after waiting_schedule) finish_schedule
                     (after (waiting_schedule ++ finish_schedule)) 2 true
                     ltac:(vm_compute; reflexivity) ltac:(vm_compute; reflexivity)
                     ltac:(vm_compute; discriminate)
                     ltac:(vm_compute; reflexivity) ltac:(vm_compute; reflexivity))
              1 (Worker WBody (job0 ok) timer0)
              ltac:(vm_compute; reflexivity) ltac:(vm_compute; reflexivity))
    as (t'&Ht&Hp&_&_&Hb).
  exists t'. repeat split; assumption.
Defined.

(** Against C5 as stated: after a graceful Close, [Close(false)] returns
    and the shared context is not cancelled. *)
Lemma close_false_after_graceful_leaves_ctx :
  run (init pool1) (graceful_schedule ++ then_ungraceful)
  = Some (after (graceful_schedule ++ then_ungraceful))
  ∧ threads (after (graceful_schedule ++ then_ungraceful)) !! 0
    = Some (Closer (CDone true) true)
  ∧ threads (after (graceful_schedule ++ then_ungraceful)) !! 1
    = Some (Closer (CDone false) false)
  ∧ cancelled (pool (after (graceful_schedule ++ then_ungraceful))) = false
  ∧ ctx_done (pool (after (graceful_schedule ++ then_ungraceful))) = false.
Proof. repeat (split; [vm_compute; reflexivity|]). vm_compute; reflexivity. Qed.

Lemma ungraceful_shutdown_cancels_witness :
  NewPool opts1 = Some pool1
  ∧ run (init pool1) ungraceful_schedule = Some (after ungraceful_schedule)
  ∧ threads (after ungraceful_schedule) !! 0 = Some (Closer CWait false)
  ∧ cancelled (pool (after ungraceful_schedule)) = true
  ∧ ctx_done (pool (after ungraceful_schedule)) = true.
Proof.
  do 3 (split; [vm_compute; reflexivity|]).
  exact (proj1 (ungraceful_shutdown_cancels opts1 pool1 ungraceful_schedule
                  (after ungraceful_schedule) ltac:(vm_compute; reflexivity) ltac:(vm_compute; reflexivity))
           0 CWait ltac:(vm_compute; reflexivity) ltac:(left; reflexivity)).
Defined.

Lemma close_is_idempotent_witness :
  NewPool opts1 = Some pool1
  ∧ run (init pool1) recheck_schedule = Some (after recheck_schedule)
  ∧ threads (after recheck_schedule) !! 1 = Some (Closer CCheck false)
  ∧ closed (pool (after recheck_schedule)) = true
  ∧ total performs_shutdown (after recheck_schedule) = 1
  ∧ ∃ s', run (after recheck_schedule) [Next 1; Next 1] = Some s'
      ∧ threads s' = <[1 := Closer (CDone false) false]> (threads (after recheck_schedule))
      ∧ pool s' = set_locked false (pool (after recheck_schedule)).
Proof.
  do 4 (split; [vm_compute; reflexivity|]).
  pose proof (close_is_idempotent opts1 pool1 recheck_schedule
                (after recheck_schedule) ltac:(vm_compute; reflexivity) ltac:(vm_compute; reflexivity))
    as (H1&_&_&_&_&_&H7&_).
  split; [exact H1|].
  destruct (H7 1 false ltac:(vm_compute; reflexivity) ltac:(vm_compute; reflexivity)) as (_&s'&Hr&Ht&Hp&_).
  exists s'. repeat split; assumption.
Defined.

Lemma idle_timeout_exits_handoff_resets_witness :
  NewPool opts1 = Some pool1
  ∧ idleTimeout pool1 = second
  ∧ run (init pool1) idle_schedule = Some (after idle_schedule)
  ∧ threads (after idle_schedule) !! 1 = Some (Worker WSelect (job0 ok) timer0)
  ∧ step (after idle_schedule) (TimerExpires 1) = None
  ∧ (∃ s', run (after idle_schedule) (timeout_schedule 1 timer0 second) = Some s'
       ∧ threads s' !! 1 = Some (Worker WExited (job0 ok) (snd (Stop (drain timer0))))
       ∧ S (tokens_len (pool s')) = tokens_len (pool (after idle_schedule))
       ∧ S (wait (pool s')) = wait (pool (after idle_schedule))
       ∧ now s' = second)
  ∧ run (init pool1) ready_schedule = Some (after ready_schedule)
  ∧ threads (after ready_schedule) !! 1 = Some (Worker WSelect (job0 ok) timer0)
  ∧ threads (after ready_schedule) !! 2
    = Some (Executor ESelect {| origin := 2; fn := Some ok |})
  ∧ ∃ s', run (after ready_schedule) (handoff_schedule 2 1 timer0) = Some s'
      ∧ threads s' !! 1
        = Some (Worker WCall {| origin := 2; fn := Some ok |}
                  timer0).
Proof.
  do 5 (split; [vm_compute; reflexivity|]). split.
  - pose proof (idle_timeout_exits_handoff_resets opts1 pool1 idle_schedule
                  (after idle_schedule) 1 (job0 ok) timer0
                  ltac:(vm_compute; reflexivity) ltac:(vm_compute; reflexivity)
                  ltac:(vm_compute; reflexivity)) as (_&_&_&H4&_).
    destruct (H4 second ltac:(vm_compute; discriminate)
                ltac:(vm_compute; discriminate))
      as (s'&Hr&Ht&Hk&Hw&_&_&Hn).
    exists s'. repeat split; assumption.
  - do 3 (split; [vm_compute; reflexivity|]).
    pose proof (idle_timeout_exits_handoff_resets opts1 pool1 ready_schedule
                  (after ready_schedule) 1 (job0 ok) timer0
                  ltac:(vm_compute; reflexivity) ltac:(vm_compute; reflexivity)
                  ltac:(vm_compute; reflexivity)) as (_&_&_&_&_&H6).
    destruct (H6 2 {| origin := 2; fn := Some ok |} ok
                ltac:(vm_compute; reflexivity) ltac:(reflexivity)
                ltac:(vm_compute; reflexivity))
      as (s'&Hr&Ht&_).
    exists s'. split; assumption.
Defined.

Lemma execute_recovers_its_panics_witness :
  NewPool opts1 = Some pool1
  ∧ run (init pool1) late_schedule = Some (after late_schedule)
  ∧ threads (after late_schedule) !! 1
    = Some (Executor ESelect {| origin := 1; fn := Some ok |})
  ∧ ∃ s', run (after late_schedule) [SendPanic 1; Next 1] = Some s'
      ∧ threads s' = <[1 := Executor (EDone false) {| origin := 1; fn := Some ok |}]>
                       (threads (after late_schedule))
      ∧ sink s' = [SendOnClosed].
Proof.
  do 3 (split; [vm_compute; reflexivity|]).
  destruct (proj1 (proj2 (execute_recovers_its_panics opts1 pool1 late_schedule
                            (after late_schedule) ltac:(vm_compute; reflexivity) ltac:(vm_compute; reflexivity)))
              1 {| origin := 1; fn := Some ok |} ltac:(vm_compute; reflexivity) ltac:(vm_compute; reflexivity))
    as (s'&Hr&Ht&Hs&_).
  exists s'. repeat split; assumption.
Defined.


Lemma nil_task_never_runs_witness :
  NewPool opts1 = Some pool1
  ∧ run (init pool1) nil_schedule = Some (after nil_schedule)
  ∧ threads (after nil_schedule) !! 2
    = Some (Executor ESelect {| origin := 2; fn := None |})
  ∧ invocations 2 (after nil_schedule) = 0
  ∧ ∃ s', run (after nil_schedule) (SendPending 2 1 :: replicate 4 (Next 1)) = Some s'
      ∧ threads s' !! 1
        = Some (Worker WExited {| origin := 2; fn := None |} (snd (Stop timer0)))
      ∧ started s' = started (after nil_schedule)
      ∧ sink s' = sink (after nil_schedule).
Proof.
  do 3 (split; [vm_compute; reflexivity|]).
  pose proof (nil_task_never_runs opts1 pool1 nil_schedule (after nil_schedule)
                ltac:(vm_compute; reflexivity) ltac:(vm_compute; reflexivity)) as [H1 H2].
  split; [exact (H1 2 ESelect {| origin := 2; fn := None |} ltac:(vm_compute; reflexivity) ltac:(vm_compute; reflexivity))|].
  destruct (H2 2 1 {| origin := 2; fn := None |} (job0 ok) timer0
              ltac:(vm_compute; reflexivity) ltac:(vm_compute; reflexivity) ltac:(vm_compute; reflexivity) ltac:(vm_compute; reflexivity))
    as (s'&Hr&Ht&_&_&_&Hst&Hsk).
  exists s'. repeat split; assumption.
Defined.
(** * More of pool.go *)

Lemma apply_opts_app p opts1 opts2 :
  apply_opts p (opts1 ++ opts2)
  = match apply_opts p opts1 with
    | Some p1 => apply_opts p1 opts2
    | None => None
    end.
Proof.
  revert p. induction opts1 as [|o opts1 IH]; intros p; simpl; [done|].
  destruct (apply_opt p o); [apply IH|done].
Qed.

Lemma apply_opts_settings opts p p' :
  apply_opts p opts = Some p' →
  concurrent p' = last_setting opt_concurrent (concurrent p) opts
  ∧ idleTimeout p' = last_setting opt_idleTimeout (idleTimeout p) opts
  ∧ recoverFunc p' = last_setting opt_recover (recoverFunc p) opts
  ∧ ctx_parent_done p' = last_setting opt_ctx (ctx_parent_done p) opts.
Proof.
  unfold last_setting. revert p'.
  induction opts as [|o opts IH] using rev_ind; intros p' H.
  { simpl in H. by simplify_eq. }
  rewrite apply_opts_app in H.
  destruct (apply_opts p opts) as [p1|]; [|done].
  destruct (IH p1 eq_refl) as (IH1&IH2&IH3&IH4).
  rewrite !omap_app. simpl in *.
  destruct o; simplify_eq/=; rewrite ?app_nil_r, ?last_snoc; simpl; done.
Qed.

(** The options are applied up to the first nil one. *)
Lemma apply_opts_None opts p : apply_opts p opts = None ↔ NilOpt ∈ opts.
Proof.
  revert p. induction opts as [|o opts IH]; intros p; simpl.
  - split; [done|]. by intros ?%elem_of_nil.
  - rewrite elem_of_cons. destruct o; simpl; rewrite ?IH; try tauto;
      split; try tauto; intros [?|?]; done.
Qed.

(** X1.  Each setting of a new pool is the value of the last option of its
    kind, whatever other options surround it, and the default when there
    is none: 10 workers, one second, no panic handler, a context that is
    not done. *)
Theorem NewPool_last_option_wins opts g :
  NewPool opts = Some g →
  concurrent g = last_setting opt_concurrent 10%Z opts
  ∧ idleTimeout g = last_setting opt_idleTimeout second opts
  ∧ recoverFunc g = last_setting opt_recover None opts
  ∧ ctx_parent_done g = last_setting opt_ctx false opts.
Proof.
  unfold NewPool. intros H.
  destruct (apply_opts default_pool opts) as [p|] eqn:Ho; [|done].
  case_match; simplify_eq.
  apply (apply_opts_settings opts default_pool _ Ho).
Qed.

(** X2.  For a list of options made of nil and of what the four helpers
    return: [NewPool] panics exactly when an option is nil (the call of
    line 32) or the capacity asked for last is negative (the [make] of
    line 38); any other such list gives a pool. *)
Theorem NewPool_panics_iff_nil_or_negative opts :
  NewPool opts = None
  ↔ NilOpt ∈ opts ∨ (last_setting opt_concurrent 10 opts < 0)%Z.
Proof.
  unfold NewPool.
  destruct (apply_opts default_pool opts) as [p|] eqn:Ho.
  - destruct (apply_opts_settings opts default_pool _ Ho) as (Hc&_).
    simpl in Hc. rewrite <-Hc.
    assert (NilOpt ∉ opts) as Hn.
    { intros Hin. apply (apply_opts_None opts default_pool) in Hin.
      by rewrite Hin in Ho. }
    case_match eqn:Hlt.
    + apply Z.ltb_lt in Hlt. split; [by right|done].
    + apply Z.ltb_ge in Hlt. split; [done|]. intros [?|?]; [done|lia].
  - apply apply_opts_None in Ho. split; [by left|done].
Qed.


Lemma step_zero_capacity s l s' :
  (concurrent (pool s) ≤ 0)%Z →
  total progressed s = 0 ∧ started s = [] →
  step s l = Some s' →
  total progressed s' = 0 ∧ started s' = [].
Proof.
  unfold total. intros Hcap [HP HS] Hs. destruct s as [g ths st sk nw].
  destruct l; simpl in Hs;
    unfold step_executor, step_worker, step_closer, doRecover, returned in Hs;
    simpl in Hs; repeat case_match; simplify_eq;
    unfold set_thread, spawn, with_pool, with_sink, log_start, advance; simpl in *;
    try delta; try weigh progressed;
    try match goal with
        | H : _ !! _ = Some (Worker _ _ _) |- _ =>
            pose proof (sum_lookup_le _ _ _ progressed H)
        end;
    try match goal with
        | H : _ !! _ = Some (Executor _ _) |- _ =>
            pose proof (sum_lookup_le _ _ _ progressed H)
        end;
    simpl in *;
    try match goal with H : (_ <? _)%Z = true |- _ => apply Z.ltb_lt in H end;
    repeat case_match; simplify_eq; simpl in *;
    first [lia | split; [lia|done]].
Qed.

(** X3.  A pool made with capacity 0 never runs anything: no worker is
    ever started and no body invoked; every call of Execute stays at its
    select until Close closes a channel, and then fails on it and returns
    nil. *)
Theorem zero_capacity_runs_nothing opts g tr s :
  NewPool opts = Some g → concurrent g = 0%Z → run (init g) tr = Some s →
  started s = [] ∧ total is_worker s = 0
  ∧ ∀ i pc job, threads s !! i = Some (Executor pc job) → not_taken pc = true.
Proof.
  intros Hg Hc Hr.
  assert (∀ s0, (concurrent (pool s0) ≤ 0)%Z →
            total progressed s0 = 0 ∧ started s0 = [] →
            run s0 tr = Some s → total progressed s = 0 ∧ started s = []) as H.
  { clear. induction tr as [|l tr IH]; intros s0 Hc H0 Hr; simpl in Hr.
    - by simplify_eq.
    - destruct (step s0 l) as [s1|] eqn:Hs; [|done].
      destruct (step_const _ _ _ Hs) as (Hc1&_).
      eapply IH; [|by eapply step_zero_capacity|done]. lia. }
  destruct (H (init g)) as [HP HS]; [simpl; lia|done|done|].
  split; [done|]. unfold total in *. split.
  - apply sum_zero, Forall_lookup. intros i t Hi.
    pose proof (weight_zero _ _ _ _ HP Hi). by destruct t.
  - intros i pc job Hi. pose proof (weight_zero _ _ _ _ HP Hi) as Hz.
    by destruct pc as [| | |[[]|]|[]| |].
Qed.

(** X4.  When Execute returns nil its task is lost for good: it was not
    and will not be invoked and nobody holds it; and Execute returns nil
    only when Close has closed a channel. *)
Theorem nil_return_means_dropped opts g tr s k job :
  NewPool opts = Some g → run (init g) tr = Some s →
  threads s !! k = Some (Executor (EDone false) job) →
  invocations k s = 0 ∧ total (holds_job k) s = 0
  ∧ pending_closed (pool s) || tokens_closed (pool s) = true
  ∧ ∀ tr' s', run s tr' = Some s' →
      threads s' !! k = Some (Executor (EDone false) job) ∧ invocations k s' = 0.
Proof.
  intros Hg Hr Hk.
  assert (Hdrop : ∀ s1, Inv s1 → indexed s1 →
            threads s1 !! k = Some (Executor (EDone false) job) →
            invocations k s1 = 0 ∧ total (holds_job k) s1 = 0).
  { intros s1 HI Hix Hk1. pose proof (inv_jobs _ HI k) as Hjobs.
    assert (total (owes k) s1 = 0); [|lia].
    apply sum_zero, Forall_lookup. intros i t Hi.
    destruct t as [pc' job'| |]; simpl; try done.
    destruct (is_job k job') eqn:Hj'; [|by destruct pc' as [| | |[]|[]| |]].
    apply is_job_spec in Hj' as [Ho Hn]. rewrite (Hix _ _ _ Hi) in Ho. subst i.
    rewrite Hk1 in Hi. by simplify_eq. }
  pose proof (reachable_inv _ _ _ _ Hg Hr) as HI.
  pose proof (reachable_indexed _ _ _ Hr) as Hix.
  destruct (Hdrop s HI Hix Hk) as [H1 H2]. do 2 (split; [done|]). split.
  - pose proof (reachable_open_no_failure _ _ _ _ Hg Hr) as Hf.
    pose proof (sum_lookup_le _ _ _ failed Hk) as Hle. simpl in Hle.
    unfold open_no_failure, total in Hf.
    destruct (pending_closed (pool s)), (tokens_closed (pool s)); try done.
    specialize (Hf eq_refl eq_refl). lia.
  - intros tr' s' Hr'.
    assert (Hk' : threads s' !! k = Some (Executor (EDone false) job)).
    { clear -Hk Hr'. revert s Hk Hr'.
      induction tr' as [|l tr' IH]; intros s Hk Hr'; simpl in Hr'.
      - by simplify_eq.
      - destruct (step s l) as [s1|] eqn:Hs; [|done]. eapply IH; [|done].
        destruct (step_persist _ _ _ _ _ Hs Hk) as [t' Ht'].
        destruct (step_lookup _ _ _ _ _ Hs Ht') as [Ho|[(t0&Ho&[Hf|He])|[-> _]]].
        + congruence.
        + rewrite Hk in Ho. injection Ho as <-.
          destruct t'; simpl in Hf; try done. by destruct Hf.
        + rewrite Hk in Ho. injection Ho as <-. by destruct t'.
        + apply lookup_lt_Some in Hk. lia. }
    split; [done|]. apply Hdrop; [|by eapply run_indexed|done].
    by eapply run_inv.
Qed.

(** X6.  The timer idiom of lines 74-77 is safe in this loop: the receive
    of line 75 always finds the value (it never blocks), [timer.Reset] is
    always called on a stopped timer whose channel is empty, and a running
    timer never has a stale value in its channel. *)
Theorem timer_drain_never_blocks opts g tr s j pc job tm :
  NewPool opts = Some g → run (init g) tr = Some s →
  threads s !! j = Some (Worker pc job tm) →
  (pc = WDrain → chan tm = true ∧ active tm = false
                 ∧ is_Some (step s (Next j)))
  ∧ (pc = WReset → active tm = false ∧ chan tm = false)
  ∧ (active tm = true → chan tm = false).
Proof.
  intros Hg Hr Hj. pose proof (reachable_inv _ _ _ _ Hg Hr) as HI.
  pose proof (weight_zero _ _ _ _ (inv_timer _ HI) Hj) as Hlost.
  pose proof (weight_zero _ _ _ _ (inv_stale _ HI) Hj) as Hstale.
  split; [|split].
  - intros ->. simpl. rewrite Hj.
    destruct tm as [[] [] ?]; simpl in *; try done; repeat split; by eexists.
  - intros ->. by destruct tm as [[] [] ?].
  - intros Ha. by destruct tm as [[] [] ?].
Qed.

Lemma sum_mono {A} (f h : A → nat) l :
  (∀ x, f x ≤ h x) → sum_list_with f l ≤ sum_list_with h l.
Proof. intros Hle. induction l as [|x l IH]; simpl; [lia|]. specialize (Hle x). lia. Qed.

(** X10.  The shutdown sequence is seen in its order by everybody: a
    closed [tokens] implies a closed [pending], a closed [pending]
    implies the flag [closed], and the pool has cancelled its context
    only with both channels closed. *)
Theorem shutdown_order opts g tr s :
  NewPool opts = Some g → run (init g) tr = Some s →
  (cancelled (pool s) = true → tokens_closed (pool s) = true)
  ∧ (tokens_closed (pool s) = true → pending_closed (pool s) = true)
  ∧ (pending_closed (pool s) = true → closed (pool s) = true).
Proof.
  intros Hg Hr. pose proof (reachable_inv _ _ _ _ Hg Hr) as HI.
  pose proof (inv_closed _ HI) as H1. pose proof (inv_pending _ HI) as H2.
  pose proof (inv_tokens_closed _ HI) as H3. pose proof (inv_cancel _ HI) as H4.
  unfold total in *.
  assert (sum_list_with called_cancel (threads s)
          ≤ sum_list_with closed_tokens (threads s))
    by (apply sum_mono; intros [| |[] []]; simpl; repeat case_match; lia).
  assert (sum_list_with closed_tokens (threads s)
          ≤ sum_list_with closed_pending (threads s))
    by (apply sum_mono; intros [| |[] ?]; simpl; repeat case_match; lia).
  assert (sum_list_with closed_pending (threads s)
          ≤ sum_list_with performs_shutdown (threads s))
    by (apply sum_mono; intros [| |[] ?]; simpl; repeat case_match; lia).
  destruct (cancelled (pool s)), (tokens_closed (pool s)),
    (pending_closed (pool s)), (closed (pool s)); simpl in *;
    repeat split; intros; try done; lia.
Qed.

(** X8.  Nothing leaks: when every goroutine of the pool has ended,
    [tokens] is empty, the WaitGroup counter is zero and the mutex is
    free. *)
Theorem finished_pool_holds_nothing opts g tr s :
  NewPool opts = Some g → run (init g) tr = Some s →
  (∀ i t, threads s !! i = Some t → finished t = true) →
  tokens_len (pool s) = 0 ∧ wait (pool s) = 0 ∧ locked (pool s) = false.
Proof.
  intros Hg Hr Hfin. pose proof (reachable_inv _ _ _ _ Hg Hr) as HI.
  rewrite (inv_tokens _ HI), (inv_wait _ HI).
  pose proof (inv_lock _ HI) as Hl. unfold total in *.
  assert (∀ f : Thread → nat, (∀ t, finished t = true → f t = 0) →
            sum_list_with f (threads s) = 0) as Hz.
  { intros f Hf. apply sum_zero, Forall_lookup. intros i t Hi. eauto. }
  rewrite !Hz in *.
  - by destruct (locked (pool s)).
  - by intros [[]|[]|[]].
  - by intros [[]|[]|[]].
  - by intros [[]|[]|[]].
Qed.

Lemma sum_mono_lookup {A} (f h : A → nat) l :
  (∀ i x, l !! i = Some x → f x ≤ h x) →
  sum_list_with f l ≤ sum_list_with h l.
Proof.
  induction l as [|x l IH]; intros Hle; simpl; [lia|].
  pose proof (Hle 0 x eq_refl). pose proof (IH (λ i, Hle (S i))). lia.
Qed.

(** A call whose task is not taken has no invocation to its name. *)
Lemma not_taken_not_invoked s k pc job :
  Inv s → indexed s → threads s !! k = Some (Executor pc job) →
  not_taken pc = true → invocations k s = 0.
Proof.
  intros HI Hix Hk Hnt. pose proof (inv_jobs _ HI k) as Hjobs.
  assert (total (owes k) s ≤ total (holds_job k) s); [|lia].
  apply sum_mono_lookup. intros i t Hi.
  destruct t as [pc' job'| |]; simpl; try lia.
  destruct (is_job k job') eqn:Hj';
    [|destruct pc' as [| | |[]|[]| |]; simpl; lia].
  apply is_job_spec in Hj' as [Ho Hn]. rewrite (Hix _ _ _ Hi) in Ho. subst i.
  rewrite Hk in Hi. simplify_eq.
  destruct pc' as [| | |[[]|]|[]| |]; simpl in *; try done; lia.
Qed.

(** Channels stay closed, and on closed channels a call that was not
    taken stays so. *)
Lemma step_not_taken s l s' k pc job :
  pending_closed (pool s) = true → tokens_closed (pool s) = true →
  threads s !! k = Some (Executor pc job) → not_taken pc = true →
  step s l = Some s' →
  pending_closed (pool s') = true ∧ tokens_closed (pool s') = true
  ∧ ∃ pc', threads s' !! k = Some (Executor pc' job) ∧ not_taken pc' = true.
Proof.
  intros Hp Ht Hk Hnt Hs. pose proof (lookup_lt_Some _ _ _ Hk) as Hlt.
  destruct s as [g ths st sk nw]. simpl in *.
  destruct l; simpl in Hs;
    unfold step_executor, step_worker, step_closer, doRecover, returned in Hs;
    simpl in Hs; repeat case_match; simplify_eq; simpl;
    (split; [done|]); (split; [done|]);
    rewrite ?lookup_app_l by (rewrite ?length_insert; lia);
    try match goal with
        | |- context [<[?i:=_]> _ !! k] =>
            destruct (decide (i = k)) as [->|?];
            [rewrite list_lookup_insert_eq by done
            |rewrite list_lookup_insert_ne by done]
        end;
    simplify_eq; simpl in *; try done; eauto.
Qed.

(** X5.  A call of Execute made once Close has closed both channels never
    has its task run, whatever happens afterwards: the call stays at its
    select, fails on the closed channel, or has returned nil, and no
    invocation of its body is ever logged. *)
Theorem execute_after_close_never_runs opts g tr s f tr' s' :
  NewPool opts = Some g → run (init g) tr = Some s →
  pending_closed (pool s) = true → tokens_closed (pool s) = true →
  run s (CallExecute f :: tr') = Some s' →
  ∃ pc, threads s' !! length (threads s)
        = Some (Executor pc {| origin := length (threads s); fn := f |})
    ∧ not_taken pc = true
    ∧ invocations (length (threads s)) s' = 0.
Proof.
  intros Hg Hr Hp Ht Hr'.
  pose proof (reachable_inv _ _ _ _ Hg Hr) as HI.
  pose proof (reachable_indexed _ _ _ Hr) as Hix.
  set (k := length (threads s)) in *.
  set (job := {| origin := k; fn := f |}).
  cbn [run] in Hr'.
  destruct (step s (CallExecute f)) as [s1|] eqn:Hs1; [|done].
  assert (HI' : Inv s') by (eapply run_inv; [|done]; by eapply step_inv).
  assert (Hix' : indexed s') by (eapply run_indexed; [|done]; by eapply step_indexed).
  assert (Hk1 : threads s1 !! k = Some (Executor ESelect job)).
  { simpl in Hs1. simplify_eq. simpl. by rewrite lookup_app_r, Nat.sub_diag. }
  assert (Hp1 : pending_closed (pool s1) = true) by (simpl in Hs1; by simplify_eq).
  assert (Ht1 : tokens_closed (pool s1) = true) by (simpl in Hs1; by simplify_eq).
  assert (∃ pc, threads s' !! k = Some (Executor pc job) ∧ not_taken pc = true)
    as (pc&Hk'&Hnt).
  { clear -Hr' Hk1 Hp1 Ht1.
    assert (∃ pc, threads s1 !! k = Some (Executor pc job) ∧ not_taken pc = true)
      as Hex by by exists ESelect.
    clear Hk1. revert s1 Hr' Hp1 Ht1 Hex.
    induction tr' as [|l tr' IH]; intros s1 Hr' Hp1 Ht1 (pc&Hk1&Hnt); simpl in Hr'.
    - simplify_eq. by exists pc.
    - destruct (step s1 l) as [s2|] eqn:Hs; [|done].
      destruct (step_not_taken _ _ _ _ _ _ Hp1 Ht1 Hk1 Hnt Hs) as (?&?&?).
      by eapply IH. }
  exists pc. split; [done|]. split; [done|].
  by eapply not_taken_not_invoked.
Qed.

(** X9.  While both channels are open, the select of an Execute call has
    nothing it can do (the call blocks) exactly when the pool is
    saturated: as many token holders as the capacity and no worker waiting
    at its select. *)
Theorem execute_blocks_iff_saturated opts g tr s i job :
  NewPool opts = Some g → run (init g) tr = Some s →
  threads s !! i = Some (Executor ESelect job) →
  pending_closed (pool s) = false → tokens_closed (pool s) = false →
  select_blocked i s
  ↔ (Z.of_nat (total holds_token s) = concurrent g
     ∧ ∀ j job' tm, threads s !! j ≠ Some (Worker WSelect job' tm)).
Proof.
  intros Hg Hr Hi Hp Ht. pose proof (reachable_inv _ _ _ _ Hg Hr) as HI.
  destruct (run_const _ _ _ Hr) as (Hc&_). simpl in Hc.
  pose proof (inv_tokens _ HI) as Hlen. pose proof (inv_cap _ HI) as Hcap.
  rewrite <-Hlen, <-Hc. unfold select_blocked. simpl. rewrite Hi, Hp, Ht. simpl.
  split.
  - intros (Htok&_&Hpend). split.
    + destruct (Z.of_nat (tokens_len (pool s)) <? concurrent (pool s))%Z eqn:Hlt;
        [done|]. apply Z.ltb_ge in Hlt. lia.
    + intros j job' tm Hj. specialize (Hpend j). by rewrite Hj in Hpend.
  - intros [Heq Hno]. split; [|split; [done|]].
    + rewrite Heq, Z.ltb_irrefl. done.
    + intros j. destruct (threads s !! j) as [[| [] job' tm |]|] eqn:Hj; try done.
      by destruct (Hno j job' tm).
Qed.
Lemma abandoned_le_counted l :
  sum_list_with abandoned l ≤ sum_list_with counted l.
Proof.
  induction l as [|[[]|[]|] l IH]; simpl; repeat case_match; simpl; lia.
Qed.

Lemma window_off_le v l :
  sum_list_with (window_off v) l ≤ sum_list_with in_window l.
Proof.
  induction l as [|[|[]|] l IH]; simpl; repeat case_match; simpl; lia.
Qed.

Lemma window_le_off l :
  sum_list_with in_window l ≤ sum_list_with (window_off 0) l.
Proof.
  induction l as [|[|[]|] l IH]; simpl; repeat case_match; simpl; lia.
Qed.

Ltac wg_facts :=
  repeat match goal with
         | |- context [sum_list_with _ ?l] =>
             lazymatch goal with
             | _ : sum_list_with abandoned l ≤ sum_list_with counted l |- _ => fail
             | _ =>
                 pose proof (abandoned_le_counted l);
                 pose proof (window_le_off l);
                 pose proof (window_off_le 0 l)
             end
         end.

Lemma step_wg s l s' : Inv s → WgInv s → step s l = Some s' → WgInv s'.
Proof.
  intros HI HW Hs. pose proof (step_inv _ _ _ HI Hs) as HI'.
  pose proof (inv_wait _ HI) as Hw. pose proof (inv_wait _ HI') as Hw'.
  clear HI HI'. destruct s as [g ths st sk nw].
  destruct HW as [W1 W2 W3 W4]. unfold total in *. simpl in *.
  pose proof (abandoned_le_counted ths).
  pose proof (window_le_off ths).
  pose proof (window_off_le 0 ths).
  pose proof (window_off_le (waiters g) ths).
  destruct l; simpl in Hs;
    unfold step_executor, step_worker, step_closer, doRecover, returned in Hs;
    simpl in Hs; repeat case_match; simplify_eq;
    unfold set_thread, spawn, with_pool, with_sink, log_start, advance in *;
    simpl in *; try delta; try done.
  all: split; unfold total; simpl.
  all: try (weigh in_window; weigh abandoned; weigh counted;
            weigh (window_off (waiters g)); weigh (window_off 0)).
  all: wg_facts; simpl in *; repeat case_match; simplify_eq; simpl in *.
  all: try match goal with
           | H : wait ?g = _ |- context [wait ?g] => rewrite H
           end.
  all: try match goal with
           | H : waiters ?g = _ |- context [waiters ?g] => rewrite H
           end.
  all: try match goal with
           | H : waiters ?g = _, H' : context [waiters ?g] |- _ =>
               rewrite H in H'
           end.
  all: lia.
Qed.

Lemma reachable_wg opts g tr s :
  NewPool opts = Some g → run (init g) tr = Some s → WgInv s.
Proof.
  intros Hg.
  assert (∀ s0, Inv s0 → WgInv s0 → run s0 tr = Some s → WgInv s) as H.
  { induction tr as [|l tr IH]; intros s0 HI0 H0 Hr; simpl in Hr.
    - by simplify_eq.
    - destruct (step s0 l) as [s1|] eqn:Hs; [|done].
      eapply IH; [| |done]; [by eapply step_inv|by eapply step_wg]. }
  apply H; [by eapply init_inv|].
  destruct (NewPool_fresh _ _ Hg) as [(_&_&_&_&_&_&Hw&Hws&_) _].
  split; unfold total; simpl; rewrite ?Hws; auto.
Qed.

Lemma step_body_present s l s' :
  total body_missing s = 0 → step s l = Some s' → total body_missing s' = 0.
Proof.
  unfold total. intros HI Hs. destruct s as [g ths st sk nw].
  destruct l; simpl in Hs;
    unfold step_executor, step_worker, step_closer, doRecover, returned in Hs;
    simpl in Hs; repeat case_match; simplify_eq;
    unfold set_thread, spawn, with_pool, with_sink, log_start, advance; simpl in *;
    try delta; try weigh body_missing; simpl in *; repeat case_match;
    simplify_eq; lia.
Qed.

Lemma reachable_body_present g tr s :
  run (init g) tr = Some s → total body_missing s = 0.
Proof.
  assert (∀ s0, total body_missing s0 = 0 → run s0 tr = Some s →
            total body_missing s = 0) as H.
  { induction tr as [|l tr IH]; intros s0 H0 Hr; simpl in Hr.
    - by simplify_eq.
    - destruct (step s0 l) as [s1|] eqn:Hs; [|done].
      eapply IH; [|done]. by eapply step_body_present. }
  by apply H.
Qed.

Lemma calm_refl s : calm s s.
Proof. by repeat split. Qed.

Lemma calm_trans s1 s2 s3 : calm s1 s2 → calm s2 s3 → calm s1 s3.
Proof.
  intros (Ha&Hb&Hc&Hd) (Ha'&Hb'&Hc'&Hd').
  repeat split; try congruence; try lia. auto.
Qed.

(** A thread that is still counted, or is inside [Done], runs its next
    statement (at its select: it finds [pending] closed); that brings the
    threads nearer to their end and leaves the Close calls alone. *)
Lemma drain_step s j t :
  Inv s → total body_missing s = 0 → pending_closed (pool s) = true →
  threads s !! j = Some t → 0 < exit_distance t + in_window t →
  ∃ l s', step s l = Some s'
    ∧ total exit_distance s' + total in_window s'
      < total exit_distance s + total in_window s
    ∧ calm s s'.
Proof.
  intros HI Hbody Hp Hj Hd.
  pose proof (weight_zero _ _ _ _ (inv_timer _ HI) Hj) as Hlost.
  pose proof (weight_zero _ _ _ _ Hbody Hj) as Hb.
  pose proof (sum_lookup_le _ _ _ holds_token Hj) as Htok.
  pose proof (inv_tokens _ HI) as Hit. unfold total in Hit. rewrite <-Hit in Htok.
  pose proof (lookup_lt_Some _ _ _ Hj) as Hlt.
  assert (Hkeep : ∀ t' i pc gr, threads s !! i = Some (Closer pc gr) →
            <[j:=t']> (threads s) !! i = Some (Closer pc gr)).
  { intros t' i pc gr Hi. rewrite list_lookup_insert_ne; [done|].
    intros ->. rewrite Hj in Hi. simplify_eq. simpl in Hd. lia. }
  assert (Hkeep' : ∀ t' u i pc gr, threads s !! i = Some (Closer pc gr) →
            (<[j:=t']> (threads s) ++ [u]) !! i = Some (Closer pc gr)).
  { intros t' u i pc gr Hi. rewrite lookup_app_l
      by (rewrite length_insert; by eapply lookup_lt_Some). by apply Hkeep. }
  clear Hit Hbody. unfold calm, total. destruct s as [g ths st sk nw]. simpl in *.
  assert (∃ l, match step {| pool := g; threads := ths; started := st;
                             sink := sk; now := nw |} l with
               | Some s' =>
                   sum_list_with exit_distance (threads s')
                   + sum_list_with in_window (threads s')
                   < sum_list_with exit_distance ths + sum_list_with in_window ths
                   ∧ sum_list_with abandoned (threads s')
                     = sum_list_with abandoned ths
                   ∧ sum_list_with in_window (threads s')
                     ≤ sum_list_with in_window ths
                   ∧ pending_closed (pool s') = pending_closed g
                   ∧ ∀ i pc gr, ths !! i = Some (Closer pc gr) →
                       threads s' !! i = Some (Closer pc gr)
               | None => False
               end) as [l Hl].
  { destruct t as [[] job|pc job tm|]; simpl in *; try lia.
    - exists (Next j). simpl. rewrite Hj. simpl.
      pose proof (sum_insert_snoc _ _ _ (Executor (EDefer None) job)
                    (Worker WNewTimer job no_timer) Hj) as HD.
      weigh exit_distance; weigh in_window; weigh abandoned. simpl in *.
      repeat split; try lia; auto.
    - destruct pc; simpl in *; try lia;
        first
          [ solve [ exists (Next j); simpl; rewrite Hj; simpl;
                    unfold doRecover; repeat case_match; simplify_eq; simpl;
                    try delta; try weigh exit_distance; try weigh in_window;
                    try weigh abandoned; simpl in *; try lia;
                    repeat split; try lia; auto ]
          | solve [ exists (RecvClosed j); simpl; rewrite Hj, Hp; simpl; delta;
                    weigh exit_distance; weigh in_window; weigh abandoned;
                    simpl in *; repeat split; try lia; auto ] ]. }
  exists l. destruct (step _ l) as [s'|]; [|done]. exists s'. split; [done|].
  destruct Hl as (?&?&?&?&?). repeat split; try done.
Qed.

Lemma sum_add {A} (f h : A → nat) l :
  sum_list_with (λ x, f x + h x) l = sum_list_with f l + sum_list_with h l.
Proof. induction l as [|x l IH]; simpl; lia. Qed.

Lemma drain_all n : ∀ s,
  total exit_distance s + total in_window s ≤ n → Inv s →
  total body_missing s = 0 → pending_closed (pool s) = true →
  ∃ tr s', run s tr = Some s' ∧ Inv s'
    ∧ total exit_distance s' = 0 ∧ total in_window s' = 0 ∧ calm s s'.
Proof.
  induction n as [|n IH]; intros s Hn HI Hb Hp.
  - exists [], s. split; [done|]. split; [done|].
    split; [lia|]. split; [lia|apply calm_refl].
  - destruct (decide (total exit_distance s + total in_window s = 0)) as [Hz|Hz].
    { exists [], s. split; [done|]. split; [done|].
      split; [lia|]. split; [lia|apply calm_refl]. }
    destruct (sum_pos (λ t, exit_distance t + in_window t) (threads s))
      as (j&t&Hj&Hd).
    { unfold total in Hz. rewrite sum_add. lia. }
    destruct (drain_step s j t HI Hb Hp Hj Hd) as (l&s1&Hs&Hlt&Hc1).
    destruct (IH s1) as (tr&s'&Hr&HI'&Hz'&Hw'&Hc');
      [lia|by eapply step_inv|by eapply step_body_present
      |destruct Hc1 as (_&_&->&_); done|].
    exists (l :: tr), s'. simpl. rewrite Hs. do 4 (split; [done|]).
    by eapply calm_trans.
Qed.

Lemma counted_le_distance l :
  sum_list_with counted l
  ≤ sum_list_with exit_distance l + sum_list_with abandoned l.
Proof.
  induction l as [|[[]|[]|] l IH]; simpl; repeat case_match; simpl; lia.
Qed.

(** X7.  Provided no call of Execute has panicked in [wait.Add(1)]: from
    any reachable state in which a Close call stands in [g.wait.Wait()]
    (before it, parked in it, or woken from it) there is a schedule, made
    of statements of the workers and of that call only (each body
    returning or panicking when it is run, each worker at its select
    finding [pending] closed), after which that call has returned; the
    counter is zero then and no worker is in its loop. *)
Theorem waiting_close_can_return opts g tr s i pc grace :
  NewPool opts = Some g → run (init g) tr = Some s →
  threads s !! i = Some (Closer pc grace) →
  pc = CWait ∨ pc = CParked ∨ pc = CWoken →
  total abandoned s = 0 →
  ∃ tr' s', run s tr' = Some s'
    ∧ threads s' !! i = Some (Closer (CDone true) grace)
    ∧ wait (pool s') = 0 ∧ total in_loop s' = 0.
Proof.
  intros Hg Hr Hi Hpc Hab. pose proof (reachable_inv _ _ _ _ Hg Hr) as HI.
  pose proof (reachable_body_present _ _ _ Hr) as Hb.
  assert (Hp : pending_closed (pool s) = true).
  { pose proof (sum_lookup_le _ _ _ closed_pending Hi) as Hle.
    pose proof (inv_pending _ HI) as Hip. unfold total in Hip.
    rewrite Hip in Hle. destruct (pending_closed (pool s)); [done|].
    by destruct Hpc as [->|[->| ->]]; simpl in Hle; lia. }
  destruct (drain_all _ s (le_n _) HI Hb Hp)
    as (tr'&s1&Hr1&HI1&Hz&Hwin&Hab1&_&_&Hk).
  pose proof (Hk _ _ _ Hi) as Hi1.
  assert (HW1 : WgInv s1).
  { eapply (reachable_wg opts g (tr ++ tr')); [done|]. by rewrite run_app, Hr. }
  pose proof (counted_le_distance (threads s1)) as Hcd.
  pose proof (inv_wait _ HI1) as Hw. pose proof (inv_sema _ HI1) as Hsm.
  pose proof (wg_waiters _ HW1) as Hws. unfold total in *.
  assert (Hw0 : wait (pool s1) = 0) by lia.
  assert (Hws0 : waiters (pool s1) = 0) by lia.
  pose proof (lookup_lt_Some _ _ _ Hi1) as Hlt.
  pose proof (in_loop_le_counted (threads s1)) as Hlc.
  assert (Hloop : ∀ t', sum_list_with in_loop
                          (<[i:=Closer t' grace]> (threads s1)) = 0).
  { intros t'. pose proof (sum_insert _ _ _ (Closer t' grace) Hi1 in_loop) as HD.
    simpl in HD. lia. }
  destruct Hpc as [->|[->| ->]].
  - exists (tr' ++ [Next i]), (set_thread i (Closer (CDone true) grace) s1).
    rewrite run_app, Hr1. simpl. rewrite Hi1. simpl. rewrite Hw0.
    split; [done|]. simpl. rewrite list_lookup_insert_eq by done. auto.
  - pose proof (sum_lookup_le _ _ _ at_parked Hi1) as Hpk. simpl in Hpk.
    destruct (sema (pool s1)) as [|n] eqn:Hse; [lia|].
    exists (tr' ++ [Next i; Next i]),
      (set_thread i (Closer (CDone true) grace)
         (set_thread i (Closer CWoken grace)
            (with_pool (set_sema n (pool s1)) s1))).
    rewrite run_app, Hr1. simpl. rewrite Hi1. simpl. rewrite Hse. simpl.
    rewrite list_lookup_insert_eq by done. simpl. rewrite Hw0, Hws0.
    split; [done|]. simpl. rewrite list_lookup_insert_eq by (by rewrite length_insert).
    split; [done|]. split; [done|]. rewrite list_insert_insert_eq. apply Hloop.
  - exists (tr' ++ [Next i]), (set_thread i (Closer (CDone true) grace) s1).
    rewrite run_app, Hr1. simpl. rewrite Hi1. simpl. rewrite Hw0, Hws0.
    split; [done|]. simpl. rewrite list_lookup_insert_eq by done. auto.
Qed.


(** Lines 48-52 for a nil func, then lines 60-64 of the worker it starts:
    the call has returned the pool and the worker is unwinding from the
    call of nil. *)
Lemma nil_spawn_prefix s i job :
  threads s !! i = Some (Executor ESelect job) → fn job = None →
  tokens_closed (pool s) = false → waiters (pool s) = 0 →
  (Z.of_nat (tokens_len (pool s)) < concurrent (pool s))%Z →
  ∃ s6, run s [SendToken i; Next i; Next i; Next i;
               Next (length (threads s)); Next (length (threads s))] = Some s6
    ∧ threads s6 !! i = Some (Executor (EDone true) job)
    ∧ threads s6 !! length (threads s)
      = Some (Worker (WDeferStop (Some NilFuncCall)) job
                (NewTimer (idleTimeout (pool s)) (now s)))
    ∧ tokens_len (pool s6) = S (tokens_len (pool s))
    ∧ wait (pool s6) = S (wait (pool s))
    ∧ recoverFunc (pool s6) = recoverFunc (pool s)
    ∧ started s6 = started s ∧ sink s6 = sink s.
Proof.
  intros Hi Hfn Htc Hwz Hlt. pose proof (lookup_lt_Some _ _ _ Hi) as Hlen.
  apply Z.ltb_lt in Hlt. destruct s as [g ths st sk nw]. simpl in *.
  rewrite Hi, Htc, Hlt. simpl.
  rewrite list_lookup_insert_eq by done. simpl. rewrite Hwz.
  destruct (wait g) as [|n] eqn:Hwt; simpl.
  all: rewrite list_lookup_insert_eq by (by rewrite length_insert); simpl.
  all: rewrite lookup_app_l by (by rewrite !length_insert).
  all: rewrite list_lookup_insert_eq by (by rewrite !length_insert); simpl.
  all: rewrite list_lookup_insert_ne by lia.
  all: rewrite lookup_app_r by (rewrite !length_insert; lia).
  all: rewrite !length_insert, Nat.sub_diag; simpl.
  all: rewrite list_lookup_insert_eq
    by (rewrite !length_insert, length_app, !length_insert; simpl; lia).
  all: simpl; rewrite Hfn; eexists; (split; [done|]); simpl.
  all: rewrite list_lookup_insert_eq
    by (rewrite !length_insert, length_app, !length_insert; simpl; lia).
  all: rewrite !list_lookup_insert_ne by lia.
  all: rewrite list_lookup_insert_eq
    by (rewrite length_app, !length_insert; simpl; lia).
  all: done.
Qed.

(** X12.  [Execute(nil)] on a pool with a free token is accepted like any
    task: the call returns the pool and a worker is started.  That worker
    panics at once on the call of nil; the panic is recovered and its
    value handed to the panic handler if there is one; the worker ends,
    and token and counter are back where they were.  No body is
    invoked. *)
Theorem nil_task_on_free_token opts g tr s i job :
  NewPool opts = Some g → run (init g) tr = Some s →
  threads s !! i = Some (Executor ESelect job) → fn job = None →
  tokens_closed (pool s) = false →
  (Z.of_nat (tokens_len (pool s)) < concurrent (pool s))%Z →
  ∃ s', run s (nil_spawn_schedule i (length (threads s))) = Some s'
    ∧ threads s' !! i = Some (Executor (EDone true) job)
    ∧ threads s' !! length (threads s)
      = Some (Worker WExited job
                (snd (Stop (NewTimer (idleTimeout (pool s)) (now s)))))
    ∧ sink s' = match recoverFunc g with
                | Some h => h NilFuncCall (sink s)
                | None => sink s
                end
    ∧ started s' = started s
    ∧ tokens_len (pool s') = tokens_len (pool s)
    ∧ wait (pool s') = wait (pool s).
Proof.
  intros Hg Hr Hi Hfn Htc Hlt.
  pose proof (reachable_inv _ _ _ _ Hg Hr) as HI.
  destruct (run_const _ _ _ Hr) as (_&Hrf&_). simpl in Hrf.
  pose proof (lookup_lt_Some _ _ _ Hi) as Hlen.
  assert (Hwz : waiters (pool s) = 0).
  { destruct (waiters (pool s)) eqn:Hws; [done|].
    rewrite (parked_closed s HI) in Htc by lia. done. }
  destruct (nil_spawn_prefix s i job Hi Hfn Htc Hwz Hlt)
    as (s6&Hr6&Hi6&Hw6&Ht6&Hc6&Hrf6&Hst6&Hsk6).
  assert (HI6 : Inv s6) by by eapply run_inv.
  destruct (run_defers s6 _ _ _ _ HI6 Hw6) as (s'&Hr'&Hth&_&Ht'&Hw'&Hst'&Hsk').
  exists s'. unfold nil_spawn_schedule. rewrite run_app, Hr6.
  split; [done|]. rewrite Hth.
  rewrite list_lookup_insert_ne by lia. split; [done|].
  rewrite list_lookup_insert_eq by (by eapply lookup_lt_Some).
  split; [done|]. unfold doRecover in Hsk'. rewrite Hrf6, Hrf, Hsk6 in Hsk'.
  split; [by destruct (recoverFunc g)|]. split; [congruence|]. lia.
Qed.

Lemma step_flags s l s' :
  step s l = Some s' →
  (closed (pool s) = true → closed (pool s') = true)
  ∧ (pending_closed (pool s) = true → pending_closed (pool s') = true)
  ∧ (tokens_closed (pool s) = true → tokens_closed (pool s') = true)
  ∧ (cancelled (pool s) = true → cancelled (pool s') = true)
  ∧ (ctx_done (pool s) = true → ctx_done (pool s') = true).
Proof.
  intros Hs. unfold ctx_done. destruct l; simpl in Hs;
    unfold step_executor, step_worker, step_closer, doRecover, returned in Hs;
    simpl in Hs; repeat case_match; simplify_eq; simpl;
    repeat split; try done; intros; by rewrite ?orb_true_r.
Qed.

(** X11.  Shutdown is permanent: nothing in pool.go reopens a channel,
    resets the flag or revives the context.  Once [closed], a closed
    [pending], a closed [tokens] or a done context is seen, it is seen in
    every later state. *)
Theorem shutdown_is_permanent s tr s' :
  run s tr = Some s' →
  (closed (pool s) = true → closed (pool s') = true)
  ∧ (pending_closed (pool s) = true → pending_closed (pool s') = true)
  ∧ (tokens_closed (pool s) = true → tokens_closed (pool s') = true)
  ∧ (cancelled (pool s) = true → cancelled (pool s') = true)
  ∧ (ctx_done (pool s) = true → ctx_done (pool s') = true).
Proof.
  revert s. induction tr as [|l tr IH]; intros s Hr; simpl in Hr.
  - by simplify_eq.
  - destruct (step s l) as [s1|] eqn:Hs; [|done].
    destruct (step_flags _ _ _ Hs) as (?&?&?&?&?).
    destruct (IH _ Hr) as (?&?&?&?&?). repeat split; auto.
Qed.

(** While a [Close] call stands at line 97 no call is parked in [Wait]. *)
Lemma at_wait_unparked s c grace :
  Inv s → threads s !! c = Some (Closer CWait grace) →
  waiters (pool s) = 0 ∧ sema (pool s) = 0.
Proof.
  intros HI Hc. pose proof (inv_sema _ HI) as Hs.
  pose proof (inv_closed _ HI) as Hcl. pose proof (b2n_le (closed (pool s))).
  pose proof (sum_lookup_le _ _ _
                (λ t, match t with Closer CWait _ => 1 | _ => 0 end) Hc) as Hle.
  pose proof (sum_pointwise_le at_parked
                (λ t, match t with Closer CWait _ => 1 | _ => 0 end)
                performs_shutdown (threads s)) as Hsum.
  unfold total in *. simpl in Hle.
  assert (∀ x, at_parked x + match x with Closer CWait _ => 1 | _ => 0 end
               ≤ performs_shutdown x) as Hpt
    by (intros [| |[] ?]; simpl; lia).
  specialize (Hsum Hpt). lia.
Qed.

(** X13.  [wait.Add(1)] comes after the token send (lines 48-49), so a
    Close call can find the counter at zero in between and return while a
    call of Execute has its token in [tokens]: that call then still starts
    its worker, and the body is invoked after Close has returned. *)
Theorem close_can_return_before_accepted_task opts g tr s c grace i job body :
  NewPool opts = Some g → run (init g) tr = Some s →
  threads s !! c = Some (Closer CWait grace) → wait (pool s) = 0 →
  threads s !! i = Some (Executor EAdd job) → fn job = Some body →
  ∃ s1 s', step s (Next c) = Some s1
    ∧ threads s1 !! c = Some (Closer (CDone true) grace)
    ∧ invocations i s1 = 0
    ∧ run s (late_start_schedule c i (length (threads s))) = Some s'
    ∧ threads s' !! c = Some (Closer (CDone true) grace)
    ∧ threads s' !! length (threads s)
      = Some (Worker WBody job (NewTimer (idleTimeout (pool s)) (now s)))
    ∧ started s' = started s ++ [origin job]
    ∧ invocations i s' = 1.
Proof.
  intros Hg Hr Hc Hw Hi Hfn.
  pose proof (reachable_inv _ _ _ _ Hg Hr) as HI.
  pose proof (reachable_indexed _ _ _ Hr) as Hix.
  pose proof (lookup_lt_Some _ _ _ Hc) as Hlc.
  pose proof (lookup_lt_Some _ _ _ Hi) as Hli.
  assert (c ≠ i) by (intros ->; congruence).
  assert (Hacc : invocations i s = 0).
  { pose proof (inv_jobs _ HI i) as Hj. pose proof (inv_owes _ HI i) as Ho.
    pose proof (sum_lookup_le _ _ _ (holds_job i) Hi) as Hle. simpl in Hle.
    assert (is_job i job = true) as Hjob
      by (apply is_job_spec; split; [by eapply Hix|congruence]).
    rewrite Hjob in Hle. unfold total in *. lia. }
  assert (Ho : origin job = i) by by eapply Hix.
  destruct (at_wait_unparked _ _ _ HI Hc) as [Hwz _].
  unfold invocations in *. destruct s as [g0 ths st sk nw]. simpl in *.
  rewrite Hc. simpl. rewrite Hw. eexists _, _. split; [done|]. simpl.
  rewrite list_lookup_insert_eq by done. split; [done|]. split; [done|].
  rewrite list_lookup_insert_ne by done. rewrite Hi. simpl. rewrite Hw, Hwz. simpl.
  rewrite list_lookup_insert_eq by (by rewrite length_insert). simpl.
  rewrite lookup_app_r by (rewrite !length_insert; lia).
  rewrite !length_insert, Nat.sub_diag. simpl.
  rewrite list_lookup_insert_eq
    by (rewrite length_app, !length_insert; simpl; lia).
  simpl. rewrite Hfn. split; [done|]. simpl.
  rewrite !(list_lookup_insert_ne _ (length ths) c) by lia.
  rewrite lookup_app_l by (by rewrite !length_insert).
  rewrite !(list_lookup_insert_ne _ i c) by done.
  rewrite list_lookup_insert_eq by done.
  rewrite list_lookup_insert_eq
    by (rewrite !length_insert, length_app, !length_insert; simpl; lia).
  repeat split; try done.
  rewrite sum_list_with_app. simpl. rewrite Hacc, Ho.
  by rewrite bool_decide_eq_true_2.
Qed.
(** A call whose [wait.Add(1)] panicked stays as it is once it has
    returned. *)
Lemma abandoned_forever s tr s' k job :
  run s tr = Some s' → threads s !! k = Some (Executor EAbandoned job) →
  threads s' !! k = Some (Executor EAbandoned job).
Proof.
  revert s. induction tr as [|l tr IH]; intros s Hr Hk; simpl in Hr.
  - by simplify_eq.
  - destruct (step s l) as [s1|] eqn:Hs; [|done]. eapply IH; [done|].
    destruct (step_persist _ _ _ _ _ Hs Hk) as [t' Ht'].
    destruct (step_lookup _ _ _ _ _ Hs Ht') as [Ho|[(t0&Ho&[Hf|He])|[-> _]]].
    + congruence.
    + rewrite Hk in Ho. injection Ho as <-.
      destruct t'; simpl in Hf; try done. by destruct Hf.
    + rewrite Hk in Ho. injection Ho as <-. by destruct t'.
    + apply lookup_lt_Some in Hk. lia.
Qed.

(** X14.  [wait.Add(1)] (line 49) panics when it finds the counter at
    zero with a [Wait] parked, which is when it comes inside the [Done]
    that brought the counter to zero.  [doRecover] recovers the panic and
    gives its value to the panic handler; Execute returns nil and starts
    no worker, and the unit it added stays in the counter.  From then on
    the body is never invoked, and the token sent at line 48 is never
    taken out of [tokens]. *)
Theorem add_panic_abandons_task opts g tr s k job :
  NewPool opts = Some g → run (init g) tr = Some s →
  threads s !! k = Some (Executor EAdd job) →
  wait (pool s) = 0 → 0 < waiters (pool s) →
  ∃ s', run s [Next k; Next k] = Some s'
    ∧ threads s' = <[k := Executor EAbandoned job]> (threads s)
    ∧ sink s' = match recoverFunc g with
                | Some h => h WaitGroupMisuse (sink s)
                | None => sink s
                end
    ∧ tokens_len (pool s') = tokens_len (pool s)
    ∧ wait (pool s') = 1
    ∧ total is_worker s' = total is_worker s
    ∧ ∀ tr' s'', run s' tr' = Some s'' →
        threads s'' !! k = Some (Executor EAbandoned job)
        ∧ invocations k s'' = 0
        ∧ holds_token (Executor EAbandoned job) = 1
        ∧ tokens_len (pool s'') = total holds_token s''
        ∧ 0 < tokens_len (pool s'').
Proof.
  intros Hg Hr Hk Hw Hws.
  destruct (run_const _ _ _ Hr) as (_&Hrf&_). simpl in Hrf.
  pose proof (lookup_lt_Some _ _ _ Hk) as Hlt.
  assert (∃ s', run s [Next k; Next k] = Some s'
            ∧ threads s' = <[k := Executor EAbandoned job]> (threads s)
            ∧ sink s' = match recoverFunc g with
                        | Some h => h WaitGroupMisuse (sink s)
                        | None => sink s
                        end
            ∧ tokens_len (pool s') = tokens_len (pool s)
            ∧ wait (pool s') = 1) as (s'&Hr'&Hth&Hsk&Htk&Hw').
  { destruct s as [p ths st sk nw]. simpl in *. rewrite Hk. simpl.
    rewrite Hw. destruct (waiters p) as [|n]; [lia|]. simpl.
    rewrite list_lookup_insert_eq by done. simpl. rewrite <-Hrf.
    destruct (recoverFunc p); simpl; (eexists; split; [done|]); simpl;
      by rewrite list_insert_insert_eq. }
  exists s'. do 5 (split; [done|]).
  assert (Hk' : threads s' !! k = Some (Executor EAbandoned job))
    by (by rewrite Hth, list_lookup_insert_eq).
  split.
  { unfold total. rewrite Hth.
    pose proof (sum_insert _ _ _ (Executor EAbandoned job) Hk is_worker) as HD.
    simpl in HD. lia. }
  assert (Hrs' : run (init g) (tr ++ [Next k; Next k]) = Some s')
    by (by rewrite run_app, Hr).
  intros tr' s'' Hr''.
  pose proof (abandoned_forever _ _ _ _ _ Hr'' Hk') as Hk''.
  assert (Hrs'' : run (init g) ((tr ++ [Next k; Next k]) ++ tr') = Some s'')
    by (by rewrite run_app, Hrs').
  pose proof (reachable_inv _ _ _ _ Hg Hrs'') as HI.
  pose proof (reachable_indexed _ _ _ Hrs'') as Hix.
  split; [done|].
  pose proof (sum_lookup_le _ _ _ holds_token Hk'') as Ht.
  pose proof (inv_tokens _ HI) as Hit. unfold total in *. simpl in *.
  split; [|split; [done|split; [done|lia]]].
  pose proof (inv_jobs _ HI k) as Hjobs.
  assert (total (owes k) s'' = 0); [|unfold total in *; lia].
  apply sum_zero, Forall_lookup. intros i t Hi.
  destruct t as [pc' job'| |]; simpl; try done.
  destruct (is_job k job') eqn:Hj'; [|by destruct pc' as [| | |[]|[]| |]].
  apply is_job_spec in Hj' as [Ho Hn]. rewrite (Hix _ _ _ Hi) in Ho. subst i.
  rewrite Hk'' in Hi. by simplify_eq.
Qed.

(** X15.  When [wait.Add(1)] of an Execute call comes after the last
    [Done] has released the Close call parked in [Wait] and before that
    call has looked at the counter again, [Add] goes through (the call
    will start its worker) and [Wait] panics: the Close call is left by a
    panic nothing recovers. *)
Theorem late_add_crashes_close opts g tr s c grace i job :
  NewPool opts = Some g → run (init g) tr = Some s →
  threads s !! c = Some (Closer CParked grace) → 0 < sema (pool s) →
  threads s !! i = Some (Executor EAdd job) →
  ∃ s', run s [Next i; Next c; Next c] = Some s'
    ∧ threads s' !! i = Some (Executor EGo job)
    ∧ threads s' !! c = Some (Closer (CCrashed WaitGroupReused) grace)
    ∧ crashed (Closer (CCrashed WaitGroupReused) grace) = 1
    ∧ wait (pool s') = S (wait (pool s))
    ∧ step s' (Next c) = None.
Proof.
  intros Hg Hr Hc Hsem Hi.
  pose proof (reachable_inv _ _ _ _ Hg Hr) as HI.
  pose proof (lookup_lt_Some _ _ _ Hc) as Hlc.
  pose proof (lookup_lt_Some _ _ _ Hi) as Hli.
  assert (c ≠ i) by (intros ->; congruence).
  assert (Hwz : waiters (pool s) = 0).
  { pose proof (inv_sema _ HI) as Hs. pose proof (inv_closed _ HI) as Hcl.
    pose proof (b2n_le (closed (pool s))).
    pose proof (parked_le_shutdown (threads s)). unfold total in *. lia. }
  destruct s as [p ths st sk nw]. simpl in *.
  rewrite Hi. simpl. rewrite Hwz.
  destruct (sema p) as [|n] eqn:Hsm; [lia|].
  destruct (wait p) as [|m] eqn:Hwt; simpl.
  all: rewrite list_lookup_insert_ne by done.
  all: rewrite Hc; simpl; rewrite Hsm; simpl.
  all: rewrite list_lookup_insert_eq by (by rewrite length_insert); simpl.
  all: rewrite ?Hwt; simpl.
  all: eexists; (split; [done|]); simpl.
  all: rewrite list_lookup_insert_eq by (by rewrite !length_insert).
  all: rewrite !list_lookup_insert_ne by done.
  all: rewrite list_lookup_insert_eq by done.
  all: done.
Qed.


(** * The further theorems at the sample schedules *)

Lemma NewPool_last_option_wins_witness :
  NewPool opts1 = Some pool1
  ∧ concurrent pool1 = 1%Z ∧ idleTimeout pool1 = second
  ∧ recoverFunc pool1 = Some keep.
Proof.
  split; [vm_compute; reflexivity|].
  destruct (NewPool_last_option_wins opts1 pool1 ltac:(vm_compute; reflexivity))
    as (H1&H2&H3&_).
  repeat split; assumption.
Defined.

Lemma zero_capacity_runs_nothing_witness :
  NewPool opts0 = Some pool0 ∧ concurrent pool0 = 0%Z
  ∧ run (init pool0) starved_schedule
    = Some (default (init pool0) (run (init pool0) starved_schedule))
  ∧ threads (default (init pool0) (run (init pool0) starved_schedule)) !! 0
    = Some (Executor (EDone false) (job0 ok))
  ∧ started (default (init pool0) (run (init pool0) starved_schedule)) = [].
Proof.
  do 4 (split; [vm_compute; reflexivity|]).
  exact (proj1 (zero_capacity_runs_nothing opts0 pool0 starved_schedule
                  (default (init pool0) (run (init pool0) starved_schedule))
                  ltac:(vm_compute; reflexivity) ltac:(vm_compute; reflexivity)
                  ltac:(vm_compute; reflexivity))).
Defined.

Lemma nil_return_means_dropped_witness :
  NewPool opts1 = Some pool1
  ∧ run (init pool1) dropped_schedule = Some (after dropped_schedule)
  ∧ threads (after dropped_schedule) !! 1
    = Some (Executor (EDone false) {| origin := 1; fn := Some ok |})
  ∧ invocations 1 (after dropped_schedule) = 0
  ∧ total (holds_job 1) (after dropped_schedule) = 0.
Proof.
  do 3 (split; [vm_compute; reflexivity|]).
  destruct (nil_return_means_dropped opts1 pool1 dropped_schedule
              (after dropped_schedule) 1 {| origin := 1; fn := Some ok |}
              ltac:(vm_compute; reflexivity) ltac:(vm_compute; reflexivity)
              ltac:(vm_compute; reflexivity))
    as (H1&H2&_).
  split; assumption.
Defined.

Lemma execute_after_close_never_runs_witness :
  NewPool opts1 = Some pool1
  ∧ run (init pool1) graceful_schedule = Some (after graceful_schedule)
  ∧ pending_closed (pool (after graceful_schedule)) = true
  ∧ tokens_closed (pool (after graceful_schedule)) = true
  ∧ run (after graceful_schedule) (CallExecute (Some ok) :: [SendPanic 1; Next 1])
    = Some (after dropped_schedule)
  ∧ ∃ pc, threads (after dropped_schedule) !! length (threads (after graceful_schedule))
          = Some (Executor pc {| origin := length (threads (after graceful_schedule));
                                 fn := Some ok |})
      ∧ not_taken pc = true
      ∧ invocations (length (threads (after graceful_schedule)))
          (after dropped_schedule) = 0.
Proof.
  do 5 (split; [vm_compute; reflexivity|]).
  exact (execute_after_close_never_runs opts1 pool1 graceful_schedule
           (after graceful_schedule) (Some ok) [SendPanic 1; Next 1]
           (after dropped_schedule)
           ltac:(vm_compute; reflexivity) ltac:(vm_compute; reflexivity)
           ltac:(vm_compute; reflexivity) ltac:(vm_compute; reflexivity)
           ltac:(vm_compute; reflexivity)).
Defined.

Lemma timer_drain_never_blocks_witness :
  NewPool opts1 = Some pool1
  ∧ run (init pool1) drain_schedule = Some (after drain_schedule)
  ∧ threads (after drain_schedule) !! 1
    = Some (Worker WDrain {| origin := 2; fn := Some ok |} (expire timer0))
  ∧ is_Some (step (after drain_schedule) (Next 1)).
Proof.
  do 3 (split; [vm_compute; reflexivity|]).
  destruct (proj1 (timer_drain_never_blocks opts1 pool1 drain_schedule
                     (after drain_schedule) 1 WDrain
                     {| origin := 2; fn := Some ok |} (expire timer0)
                     ltac:(vm_compute; reflexivity) ltac:(vm_compute; reflexivity)
                     ltac:(vm_compute; reflexivity))
              ltac:(reflexivity))
    as (_&_&H).
  exact H.
Defined.

Lemma waiting_close_can_return_witness :
  NewPool opts2 = Some pool2
  ∧ run (init pool2) (last_done_schedule ++ [DoneBegins 1])
    = Some (after2 (last_done_schedule ++ [DoneBegins 1]))
  ∧ threads (after2 (last_done_schedule ++ [DoneBegins 1])) !! 3
    = Some (Closer CParked true)
  ∧ total abandoned (after2 (last_done_schedule ++ [DoneBegins 1])) = 0
  ∧ total in_window (after2 (last_done_schedule ++ [DoneBegins 1])) = 1
  ∧ ∃ tr' s', run (after2 (last_done_schedule ++ [DoneBegins 1])) tr' = Some s'
      ∧ threads s' !! 3 = Some (Closer (CDone true) true)
      ∧ wait (pool s') = 0.
Proof.
  do 5 (split; [vm_compute; reflexivity|]).
  destruct (waiting_close_can_return opts2 pool2
              (last_done_schedule ++ [DoneBegins 1])
              (after2 (last_done_schedule ++ [DoneBegins 1])) 3 CParked true
              ltac:(vm_compute; reflexivity) ltac:(vm_compute; reflexivity)
              ltac:(vm_compute; reflexivity) ltac:(right; left; reflexivity)
              ltac:(vm_compute; reflexivity))
    as (tr'&s'&Hr&Ht&Hw&_).
  exists tr', s'. repeat split; assumption.
Defined.

Lemma finished_pool_holds_nothing_witness :
  NewPool opts1 = Some pool1
  ∧ run (init pool1) spent_schedule = Some (after spent_schedule)
  ∧ (∀ i t, threads (after spent_schedule) !! i = Some t → finished t = true)
  ∧ tokens_len (pool (after spent_schedule)) = 0
  ∧ wait (pool (after spent_schedule)) = 0.
Proof.
  do 2 (split; [vm_compute; reflexivity|]).
  assert (Hfin : ∀ i t, threads (after spent_schedule) !! i = Some t →
                   finished t = true).
  { intros [|[|i]] t; vm_compute; intros Ht; inversion Ht; reflexivity. }
  split; [exact Hfin|].
  destruct (finished_pool_holds_nothing opts1 pool1 spent_schedule
              (after spent_schedule)
              ltac:(vm_compute; reflexivity) ltac:(vm_compute; reflexivity) Hfin)
    as (H1&H2&_).
  split; assumption.
Defined.

Lemma execute_blocks_iff_saturated_witness :
  NewPool opts1 = Some pool1
  ∧ run (init pool1) (running_schedule ++ [CallExecute (Some ok)])
    = Some (after (running_schedule ++ [CallExecute (Some ok)]))
  ∧ threads (after (running_schedule ++ [CallExecute (Some ok)])) !! 2
    = Some (Executor ESelect {| origin := 2; fn := Some ok |})
  ∧ pending_closed (pool (after (running_schedule ++ [CallExecute (Some ok)]))) = false
  ∧ tokens_closed (pool (after (running_schedule ++ [CallExecute (Some ok)]))) = false
  ∧ (select_blocked 2 (after (running_schedule ++ [CallExecute (Some ok)]))
     ↔ (Z.of_nat (total holds_token
                    (after (running_schedule ++ [CallExecute (Some ok)])))
        = concurrent pool1
        ∧ ∀ j job' tm,
            threads (after (running_schedule ++ [CallExecute (Some ok)])) !! j
            ≠ Some (Worker WSelect job' tm))).
Proof.
  do 5 (split; [vm_compute; reflexivity|]).
  exact (execute_blocks_iff_saturated opts1 pool1
           (running_schedule ++ [CallExecute (Some ok)])
           (after (running_schedule ++ [CallExecute (Some ok)])) 2
           {| origin := 2; fn := Some ok |}
           ltac:(vm_compute; reflexivity) ltac:(vm_compute; reflexivity)
           ltac:(vm_compute; reflexivity) ltac:(vm_compute; reflexivity)
           ltac:(vm_compute; reflexivity)).
Defined.

Lemma shutdown_order_witness :
  NewPool opts1 = Some pool1
  ∧ run (init pool1) ungraceful_schedule = Some (after ungraceful_schedule)
  ∧ cancelled (pool (after ungraceful_schedule)) = true
  ∧ tokens_closed (pool (after ungraceful_schedule)) = true.
Proof.
  do 3 (split; [vm_compute; reflexivity|]).
  exact (proj1 (shutdown_order opts1 pool1 ungraceful_schedule
                  (after ungraceful_schedule)
                  ltac:(vm_compute; reflexivity) ltac:(vm_compute; reflexivity))
           ltac:(vm_compute; reflexivity)).
Defined.

Lemma shutdown_is_permanent_witness :
  run (after graceful_schedule) then_ungraceful
  = Some (after (graceful_schedule ++ then_ungraceful))
  ∧ closed (pool (after graceful_schedule)) = true
  ∧ closed (pool (after (graceful_schedule ++ then_ungraceful))) = true.
Proof.
  do 2 (split; [vm_compute; reflexivity|]).
  exact (proj1 (shutdown_is_permanent (after graceful_schedule) then_ungraceful
                  (after (graceful_schedule ++ then_ungraceful))
                  ltac:(vm_compute; reflexivity))
           ltac:(vm_compute; reflexivity)).
Defined.

Lemma nil_task_on_free_token_witness :
  NewPool opts1 = Some pool1
  ∧ run (init pool1) [CallExecute None] = Some (after [CallExecute None])
  ∧ threads (after [CallExecute None]) !! 0
    = Some (Executor ESelect {| origin := 0; fn := None |})
  ∧ ∃ s', run (after [CallExecute None]) (nil_spawn_schedule 0 1) = Some s'
      ∧ threads s' !! 0 = Some (Executor (EDone true) {| origin := 0; fn := None |})
      ∧ sink s' = [NilFuncCall]
      ∧ started s' = [].
Proof.
  do 3 (split; [vm_compute; reflexivity|]).
  destruct (nil_task_on_free_token opts1 pool1 [CallExecute None]
              (after [CallExecute None]) 0 {| origin := 0; fn := None |}
              ltac:(vm_compute; reflexivity) ltac:(vm_compute; reflexivity)
              ltac:(vm_compute; reflexivity) ltac:(reflexivity)
              ltac:(vm_compute; reflexivity) ltac:(vm_compute; reflexivity))
    as (s'&Hr&Hi&_&Hsk&Hst&_).
  exists s'. repeat split; assumption.
Defined.

Lemma close_can_return_before_accepted_task_witness :
  NewPool opts1 = Some pool1
  ∧ run (init pool1) race_schedule = Some (after race_schedule)
  ∧ threads (after race_schedule) !! 1 = Some (Closer CWait true)
  ∧ wait (pool (after race_schedule)) = 0
  ∧ threads (after race_schedule) !! 0 = Some (Executor EAdd (job0 ok))
  ∧ ∃ s', run (after race_schedule) (late_start_schedule 1 0 2) = Some s'
      ∧ threads s' !! 1 = Some (Closer (CDone true) true)
      ∧ threads s' !! 2 = Some (Worker WBody (job0 ok) timer0)
      ∧ invocations 0 s' = 1.
Proof.
  do 5 (split; [vm_compute; reflexivity|]).
  destruct (close_can_return_before_accepted_task opts1 pool1 race_schedule
              (after race_schedule) 1 true 0 (job0 ok) ok
              ltac:(vm_compute; reflexivity) ltac:(vm_compute; reflexivity)
              ltac:(vm_compute; reflexivity) ltac:(vm_compute; reflexivity)
              ltac:(vm_compute; reflexivity) ltac:(reflexivity))
    as (s1&s'&_&_&_&Hr&Hc&Hw&_&Hn).
  exists s'. repeat split; assumption.
Defined.

Lemma add_panic_abandons_task_witness :
  NewPool opts2 = Some pool2
  ∧ run (init pool2) (last_done_schedule ++ [DoneBegins 1])
    = Some (after2 (last_done_schedule ++ [DoneBegins 1]))
  ∧ threads (after2 (last_done_schedule ++ [DoneBegins 1])) !! 2
    = Some (Executor EAdd {| origin := 2; fn := Some ok |})
  ∧ threads (after2 (last_done_schedule ++ [DoneBegins 1])) !! 1
    = Some (Worker (WDoneCheck None 1) (job0 ok) (snd (Stop (NewTimer second 0))))
  ∧ threads (after2 (last_done_schedule ++ [DoneBegins 1])) !! 3
    = Some (Closer CParked true)
  ∧ wait (pool (after2 (last_done_schedule ++ [DoneBegins 1]))) = 0
  ∧ waiters (pool (after2 (last_done_schedule ++ [DoneBegins 1]))) = 1
  ∧ (∃ s', run (after2 (last_done_schedule ++ [DoneBegins 1])) [Next 2; Next 2]
           = Some s'
       ∧ threads s'
         = <[2 := Executor EAbandoned {| origin := 2; fn := Some ok |}]>
             (threads (after2 (last_done_schedule ++ [DoneBegins 1])))
       ∧ sink s' = [WaitGroupMisuse])
  ∧ run (init pool2) abandoned_schedule = Some (after2 abandoned_schedule)
  ∧ threads (after2 abandoned_schedule)
    = [Executor (EDone true) (job0 ok);
       Worker WExited (job0 ok) (snd (Stop (NewTimer second 0)));
       Executor EAbandoned {| origin := 2; fn := Some ok |};
       Closer CParked true]
  ∧ sink (after2 abandoned_schedule) = [WaitGroupMisuse; WaitGroupMisuse]
  ∧ tokens_len (pool (after2 abandoned_schedule)) = 1
  ∧ step (after2 abandoned_schedule) (Next 3) = None.
Proof.
  do 7 (split; [vm_compute; reflexivity|]). split.
  - destruct (add_panic_abandons_task opts2 pool2
                (last_done_schedule ++ [DoneBegins 1])
                (after2 (last_done_schedule ++ [DoneBegins 1]))
                2 {| origin := 2; fn := Some ok |}
                ltac:(vm_compute; reflexivity) ltac:(vm_compute; reflexivity)
                ltac:(vm_compute; reflexivity) ltac:(vm_compute; reflexivity)
                ltac:(vm_compute; lia))
      as (s'&Hr&Ht&Hs&_).
    exists s'. repeat split; assumption.
  - repeat (split; [vm_compute; reflexivity|]). vm_compute; reflexivity.
Defined.

Lemma late_add_crashes_close_witness :
  NewPool opts2 = Some pool2
  ∧ run (init pool2) released_schedule = Some (after2 released_schedule)
  ∧ threads (after2 released_schedule) !! 3 = Some (Closer CParked true)
  ∧ sema (pool (after2 released_schedule)) = 1
  ∧ wait (pool (after2 released_schedule)) = 0
  ∧ threads (after2 released_schedule) !! 2
    = Some (Executor EAdd {| origin := 2; fn := Some ok |})
  ∧ ∃ s', run (after2 released_schedule) [Next 2; Next 3; Next 3] = Some s'
      ∧ threads s' !! 3 = Some (Closer (CCrashed WaitGroupReused) true)
      ∧ wait (pool s') = 1.
Proof.
  do 6 (split; [vm_compute; reflexivity|]).
  destruct (late_add_crashes_close opts2 pool2 released_schedule
              (after2 released_schedule) 3 true 2
              {| origin := 2; fn := Some ok |}
              ltac:(vm_compute; reflexivity) ltac:(vm_compute; reflexivity)
              ltac:(vm_compute; reflexivity) ltac:(vm_compute; lia)
              ltac:(vm_compute; reflexivity))
    as (s'&Hr&_&Hc&_&Hw&_).
  exists s'. split; [exact Hr|]. split; [exact Hc|].
  rewrite Hw. vm_compute; reflexivity.
Defined.
